(** * Tenant-routing CNI wrapper: a shallow embedding of the command handlers

    The development follows the Go sources of the wrapper plugin, one
    module per package:

    - [parseCNIArgs], [cmdAdd], [cmdDel], [cleanupIptablesRules], [cmdCheck]
      (package main);
    - [ParseConfig] (package config);
    - [DelegateAdd], [DelegateDel], [DelegateCheck] (package delegate);
    - [NewClient], [GetFwmark], [validateFwmark] (package k8s);
    - [AddMarkRule], [RuleExists], [DeleteMarkRule], [validateFwmark]
      (package iptables);
    - [ExtractPodIP] (package result).

    Everything outside the repository (the chained plugin binary, the
    Kubernetes API, the iptables tool, the JSON codec, [net.ParseIP], the
    [%q] verb of package fmt) is an external collaborator.  Its answers come from an environment [Env]; every
    call made to it is appended to a trace, so that "what was invoked, and in
    which order" is a statement about that trace. *)

From Stdlib.Strings Require Import Ascii String Byte.
From Stdlib Require Import NArith ZArith Lia.
From stdpp Require Import base option strings list gmap.

Local Open Scope string_scope.

(** ** Go strings *)

Module Strings.

Definition byte_of (c : ascii) : N := N_of_ascii c.

(** [strings.HasPrefix]. *)
Fixpoint HasPrefix (s p : string) : bool :=
  match p, s with
  | EmptyString, _ => true
  | String _ _, EmptyString => false
  | String a p', String b s' => if Ascii.eqb a b then HasPrefix s' p' else false
  end.

(** [strings.Contains]. *)
Fixpoint Contains (s sub : string) : bool :=
  if HasPrefix s sub then true
  else match s with
       | EmptyString => false
       | String _ s' => Contains s' sub
       end.

(** [strings.Split(s, sep)] for a one-byte separator: the pieces between
    the separators, [n+1] pieces for [n] separators. *)
Fixpoint Split (s : string) (sep : ascii) : list string :=
  match s with
  | EmptyString => [EmptyString]
  | String c s' =>
      if Ascii.eqb c sep then EmptyString :: Split s' sep
      else match Split s' sep with
           | piece :: rest => String c piece :: rest
           | [] => [String c EmptyString]
           end
  end.

(** [strings.Cut]: the text before and after the first separator. *)
Fixpoint Cut (s : string) (sep : ascii) : option (string * string) :=
  match s with
  | EmptyString => None
  | String c s' =>
      if Ascii.eqb c sep then Some (EmptyString, s')
      else match Cut s' sep with
           | Some (before, after) => Some (String c before, after)
           | None => None
           end
  end.

(** [strings.SplitN(s, sep, 2)] for a one-byte separator: at most two
    pieces, cut at the first separator only. *)
Definition SplitN2 (s : string) (sep : ascii) : list string :=
  match Cut s sep with
  | Some (before, after) => [before; after]
  | None => [s]
  end.

(** [strings.ToLower] on the ASCII letters.  Bytes of multi-byte runes are
    left alone; the wrapper only compares the outcome with the ASCII
    constants "0x10" and "0x20", which no such rune lower-cases into. *)
Definition lower (c : ascii) : ascii :=
  let n := byte_of c in
  if ((65 <=? n) && (n <=? 90))%N then ascii_of_N (n + 32) else c.

Fixpoint ToLower (s : string) : string :=
  match s with
  | EmptyString => EmptyString
  | String c s' => String (lower c) (ToLower s')
  end.

(** The UTF-8 encodings of the runes for which [unicode.IsSpace] holds:
    tab, LF, VT, FF, CR, space, U+0085, U+00A0, U+1680, U+2000..U+200A,
    U+2028, U+2029, U+202F, U+205F, U+3000. *)
Definition spaceRunes : list (list N) :=
  [ [9]; [10]; [11]; [12]; [13]; [32]; [194; 133]; [194; 160];
    [225; 154; 128];
    [226; 128; 128]; [226; 128; 129]; [226; 128; 130]; [226; 128; 131];
    [226; 128; 132]; [226; 128; 133]; [226; 128; 134]; [226; 128; 135];
    [226; 128; 136]; [226; 128; 137]; [226; 128; 138];
    [226; 128; 168]; [226; 128; 169]; [226; 128; 175]; [226; 129; 159];
    [227; 128; 128] ]%N.

Fixpoint stripPrefix (p l : list N) : option (list N) :=
  match p, l with
  | [], _ => Some l
  | _ :: _, [] => None
  | a :: p', b :: l' => if (a =? b)%N then stripPrefix p' l' else None
  end.

Fixpoint stripAny (ps : list (list N)) (l : list N) : option (list N) :=
  match ps with
  | [] => None
  | p :: ps' => match stripPrefix p l with
                | Some r => Some r
                | None => stripAny ps' l
                end
  end.

(** Drop leading white-space runes; [fuel] bounds the number of runes. *)
Fixpoint trimLeft (runes : list (list N)) (fuel : nat) (l : list N) : list N :=
  match fuel with
  | O => l
  | S fuel' => match stripAny runes l with
               | Some r => trimLeft runes fuel' r
               | None => l
               end
  end.

Definition bytes (s : string) : list N := map byte_of (list_ascii_of_string s).
Definition unbytes (l : list N) : string := string_of_list_ascii (map ascii_of_N l).

(** [strings.TrimSpace]: white space removed from both ends. *)
Definition TrimSpace (s : string) : string :=
  let l := trimLeft spaceRunes (String.length s) (bytes s) in
  let r := trimLeft (map (@rev N) spaceRunes) (String.length s) (rev l) in
  unbytes (rev r).

(** [path/filepath.IsAbs] on Unix. *)
Definition IsAbs (path : string) : bool := HasPrefix path "/".

(** [strings.Join]. *)
Fixpoint Join (l : list string) (sep : string) : string :=
  match l with
  | [] => EmptyString
  | [x] => x
  | x :: rest => x +:+ sep +:+ Join rest sep
  end.

End Strings.

(** ** Go errors *)

(** An [error] value as the wrapper builds and inspects them:
    [errorString] is what [fmt.Errorf] returns without [%w] (and what the
    external collaborators return), [wrapError] what it returns with [%w]
    (the message already contains the cause's text), [StatusError] is the
    Kubernetes API status error, whose reason [errors.IsNotFound] reads. *)
Inductive error : Type :=
| errorString (s : string)
| wrapError (msg : string) (err : error)
| StatusError (reason : string) (message : string)
| PathError (op path : string) (errno : string).

(** The Go [error] interface value: [None] is [nil]. *)
Definition goerr : Type := option error.

Definition Error (e : error) : string :=
  match e with
  | errorString s => s
  | wrapError msg _ => msg
  | StatusError _ message => message
  | PathError op path errno => op +:+ " " +:+ path +:+ ": " +:+ errno
  end.

(** [fmt.Errorf(prefix + "%w", err)]. *)
Definition Errorf_w (prefix : string) (err : error) : error :=
  wrapError (prefix +:+ Error err) err.

(** [k8s.io/apimachinery/pkg/api/errors.IsNotFound]. *)
Fixpoint IsNotFound (e : error) : bool :=
  match e with
  | StatusError reason _ => bool_decide (reason = "NotFound")
  | wrapError _ err => IsNotFound err
  | errorString _ | PathError _ _ _ => false
  end.

(** [os.IsNotExist]. *)
Definition os_IsNotExist (e : error) : bool :=
  match e with
  | PathError _ _ errno => bool_decide (errno = "no such file or directory")
  | _ => false
  end.

(** How a Go call ends: it returns its results, or it panics.  The panic
    this code can raise itself is the dereference of a nil pointer. *)
Inductive completion (A : Type) : Type :=
| Returns (a : A)
| Panics.
Arguments Returns {A} a.
Arguments Panics {A}.

(** ** Addresses and delegate results *)

(** [net.IP] is a byte slice; [None] is the nil slice. *)
Definition IP : Type := option (list byte).

Definition isZeros (p : list byte) : bool := forallb (Byte.eqb x00) p.

(** [net.IP.To4]: the 4-byte form of an IPv4 address, nil otherwise. *)
Definition To4 (ip : IP) : IP :=
  match ip with
  | None => None
  | Some p =>
      if (length p =? 4)%nat then Some p
      else if (length p =? 16)%nat && isZeros (take 10 p)
              && Byte.eqb (nth 10 p x00) xff && Byte.eqb (nth 11 p x00) xff
           then Some (drop 12 p)
           else None
  end.

(** Decimal text of a byte, without leading zeros. *)
Definition digit (n : N) : string :=
  String (ascii_of_N (48 + n)) EmptyString.

Definition ubtoa (b : byte) : string :=
  let n := Byte.to_N b in
  if (n <? 10)%N then digit n
  else if (n <? 100)%N then digit (n / 10) +:+ digit (n mod 10)
       else digit (n / 100) +:+ digit ((n / 10) mod 10) +:+ digit (n mod 10).

Definition hexDigit (n : N) : string :=
  String (ascii_of_N (if (n <? 10)%N then 48 + n else 87 + n)) EmptyString.

Definition hexString (p : list byte) : string :=
  Strings.Join
    (map (fun b => hexDigit (Byte.to_N b / 16) +:+ hexDigit (Byte.to_N b mod 16)) p)
    "".

(** [net.IP.String].  The dotted form is exact; the IPv6 text form of a
    16-byte address that is not IPv4-mapped is not reproduced (the hex
    fallback stands for it), and [ExtractPodIP] never asks for it. *)
Definition IP_String (ip : IP) : string :=
  match ip with
  | None | Some [] => "<nil>"
  | Some p =>
      match To4 ip with
      | Some p4 => Strings.Join (map ubtoa p4) "."
      | None => "?" +:+ hexString p
      end
  end.

Record IPNet : Type := { IPNet_IP : IP; IPNet_Mask : list byte }.

(** [types100.IPConfig] and [types040.IPConfig]. *)
Record IPConfig100 : Type :=
  { Interface100 : option Z; Address100 : IPNet; Gateway100 : IP }.

Record IPConfig040 : Type :=
  { Version040 : string; Interface040 : option Z;
    Address040 : IPNet; Gateway040 : IP }.

(** [types100.Result] and [types040.Result].  [IPs] is a slice of pointers:
    [None] is a nil pointer, which is what the JSON decoder stores for a
    [null] element of the list a plugin prints. *)
Record Result100 : Type :=
  { CNIVersion100 : string; IPs100 : list (option IPConfig100) }.
Record Result040 : Type :=
  { CNIVersion040 : string; IPs040 : list (option IPConfig040) }.

(** The dynamic type behind a non-nil [types.Result]: the two shapes the
    extractor knows (held by the non-nil pointer the library's constructors
    return), or any other implementation, kept by its Go type name. *)
Inductive ResultValue : Type :=
| R100 (r : Result100)
| R040 (r : Result040)
| ROther (goType : string).

(** A [types.Result] interface value; [None] is nil. *)
Definition Result : Type := option ResultValue.

Module result.

(** The [for _, ipConfig := range result.IPs] loop shared by both
    extractors, over the [Address.IP] of each entry ([None] for a nil
    entry): [ipConfig.Address.IP] dereferences the entry without a check, so
    reaching a nil entry panics; an entry whose IP is nil is skipped, and the
    first entry whose [To4] is not nil is returned. *)
Fixpoint firstIPv4 (ips : list (option IP)) : completion (string * goerr) :=
  match ips with
  | [] =>
      Returns ("", Some (errorString "CNI result contains no IPv4 addresses (only IPv6)"))
  | None :: _ => Panics
  | Some ip :: rest =>
      match ip with
      | None => firstIPv4 rest
      | Some _ =>
          match To4 ip with
          | Some _ => Returns (IP_String ip, None)
          | None => firstIPv4 rest
          end
      end
  end.

Definition extractIPv4FromResult100 (r : Result100) : completion (string * goerr) :=
  if (length (IPs100 r) =? 0)%nat
  then Returns ("", Some (errorString "CNI result contains no IP addresses"))
  else firstIPv4 (map (option_map (fun c => IPNet_IP (Address100 c))) (IPs100 r)).

Definition extractIPv4FromResult040 (r : Result040) : completion (string * goerr) :=
  if (length (IPs040 r) =? 0)%nat
  then Returns ("", Some (errorString "CNI result contains no IP addresses"))
  else firstIPv4 (map (option_map (fun c => IPNet_IP (Address040 c))) (IPs040 r)).

Definition ExtractPodIP (res : Result) : completion (string * goerr) :=
  match res with
  | None => Returns ("", Some (errorString "CNI result is nil"))
  | Some (R100 r100) => extractIPv4FromResult100 r100
  | Some (R040 r040) => extractIPv4FromResult040 r040
  | Some (ROther goType) =>
      Returns ("", Some (errorString ("unsupported CNI result type: " +:+ goType)))
  end.

(** [IsIPv4]. *)
Definition IsIPv4 (ip : IP) : bool :=
  match ip with
  | None => false
  | Some _ => bool_decide (is_Some (To4 ip))
  end.

End result.

(** ** The world outside the plugin *)

(** The argument list of one rule, as handed to the iptables tool. *)
Definition rulespec : Type := list string.

(** The calls that leave the process.  A trace of them is the observable
    behaviour of one invocation. *)
Inductive call : Type :=
| InvokeDelegate (command pluginType netconf : string)
| RestInClusterConfig
| OsStat (path : string)
| BuildConfigFromFlags (masterUrl path : string)
| NewForConfig
| PodsGet (namespace name : string)
| NamespacesGet (name : string)
| IptablesNew
| IptablesExists (table chain : string) (rule : rulespec)
| IptablesAppend (table chain : string) (rule : rulespec)
| IptablesDelete (table chain : string) (rule : rulespec)
| LogPrintf (line : string)
| PrintResult (res : Result) (version : string).

(** A value or an error, for the Go functions that return a pointer and an
    error. *)
Inductive fallible (A : Type) : Type :=
| Ok (a : A)
| Err (e : error).
Arguments Ok {A} a.
Arguments Err {A} e.

(** A decoded JSON value of a [map[string]any]: a string, or anything else
    kept as its raw text. *)
Inductive any : Type :=
| AnyString (s : string)
| AnyOther (raw : string).

(** [config.PluginConf], with the fields of the embedded [types.NetConf]
    that the plugin reads.  [PrevResult] is the field the library tags
    [json:"-"]: only [version.ParsePrevResult] sets it, from the raw
    [prevResult] object the decoder keeps beside it. *)
Record PluginConf : Type :=
  { CNIVersion : string;
    Name : string;
    Type_ : string;
    PrevResult : Result;
    Kubeconfig : string;
    AnnotationKey : string;
    Delegate : string }.

(** [skel.CmdArgs]. *)
Record CmdArgs : Type :=
  { ContainerID : string;
    Netns : string;
    IfName : string;
    Args : string;
    Path : string;
    StdinData : string }.

Record Pod : Type := { Pod_Annotations : gmap string string }.
Record Namespace : Type := { Namespace_Annotations : gmap string string }.

(** The handles the Go code passes around. *)
Inductive Clientset : Type := clientset.
Inductive Manager : Type := manager.

(** What the collaborators answer.  [fault] says whether an external call
    fails, given the calls made so far, so that the same call can succeed
    once and fail later. *)
Record Env : Type :=
  { (** [json.Unmarshal] into a fresh [PluginConf] (package config).  It
        fills the fields that have a JSON key; [PrevResult] has none and
        keeps the nil of the fresh struct *)
    json_Unmarshal_conf : string -> fallible PluginConf;
    json_Unmarshal_conf_PrevResult :
      forall data conf, json_Unmarshal_conf data = Ok conf -> PrevResult conf = None;
    (** [json.Unmarshal] into a [map[string]any] and [json.Marshal] of it
        (package delegate) *)
    json_Unmarshal_map : string -> fallible (gmap string any);
    json_Marshal_map : gmap string any -> fallible string;
    (** [net.ParseIP]: nil for text that is not an IP address *)
    net_ParseIP : string -> IP;
    (** the [%q] verb of [fmt]: the text as a double-quoted Go string
        literal, with the escapes of [strconv.Quote] *)
    fmt_q : string -> string;
    os_Getenv : string -> string;
    fault : list call -> call -> goerr;
    (** the result printed by the chained plugin on a successful ADD *)
    plugin_result : list call -> string -> string -> Result;
    (** the metadata store *)
    pods : gmap (string * string) Pod;
    namespaces : gmap string Namespace;
    (** the order in which a [range] over a map visits the keys: the index
        of the next key among those not visited yet *)
    range_pick : list string -> nat }.

(** The host state one invocation can change: the rules of the PREROUTING
    chain of the mangle table, in order, and the calls made so far. *)
Record World : Type :=
  { chain : list rulespec;
    trace : list call }.

Definition record (c : call) (w : World) : World :=
  {| chain := chain w; trace := trace w ++ [c] |}.

Definition set_chain (rules : list rulespec) (w : World) : World :=
  {| chain := rules; trace := trace w |}.

(** ** A state monad over the world *)

Definition M (A : Type) : Type := World -> A * World.

Definition ret {A : Type} (a : A) : M A := fun w => (a, w).

Definition bind {A B : Type} (m : M A) (k : A -> M B) : M B :=
  fun w => let (a, w') := m w in k a w'.

Notation "'do' pat <- c ;; k" := (bind c (fun x => match x with pat => k end))
  (at level 10, pat pattern, c at level 99, k at level 200).
Notation "c ;; k" := (bind c (fun _ => k))
  (at level 100, right associativity).

(** The order of a Go [range] over a map with the given keys. *)
Fixpoint rangeOrder (pick : list string -> nat) (fuel : nat) (keys : list string)
  : list string :=
  match fuel with
  | O => []
  | S fuel' =>
      match keys with
      | [] => []
      | k0 :: _ =>
          let i := (pick keys mod length keys)%nat in
          nth i keys k0 :: rangeOrder pick fuel' (delete i keys)
      end
  end.

(** [for _, x := range xs { body(x) }]. *)
Fixpoint forEach {A : Type} (xs : list A) (body : A -> M unit) : M unit :=
  match xs with
  | [] => ret tt
  | x :: rest => body x ;; forEach rest body
  end.

Section External.

Context (env : Env).

(** An external call that only succeeds or fails. *)
Definition extcall (c : call) : M goerr :=
  fun w => (fault env (trace w) c, record c w).

(** [log.Printf]: a line on the operator's log. *)
Definition log_Printf (line : string) : M unit :=
  fun w => (tt, record (LogPrintf line) w).

(** [types.PrintResult]: the result goes to the caller on standard output. *)
Definition types_PrintResult (res : Result) (version : string) : M goerr :=
  extcall (PrintResult res version).

End External.

(** ** package config *)

Module config.
Section WithEnv.

Context (env : Env).

Definition DefaultAnnotationKey : string := "tenant.routing/fwmark".

Definition ParseConfig (stdin : string) : fallible PluginConf :=
  match json_Unmarshal_conf env stdin with
  | Err err => Err (Errorf_w "failed to parse network configuration: " err)
  | Ok conf =>
      if (String.length (Delegate conf) =? 0)%nat
      then Err (errorString "delegate plugin configuration is required")
      else if decide (Kubeconfig conf = "")
      then Err (errorString "kubeconfig path is required")
      else if negb (Strings.IsAbs (Kubeconfig conf))
      then Err (errorString ("kubeconfig path must be absolute, got: " +:+ Kubeconfig conf))
      else if Strings.Contains (Kubeconfig conf) ".."
      then Err (errorString ("kubeconfig path cannot contain '..' components: "
                             +:+ Kubeconfig conf))
      else if decide (AnnotationKey conf = "")
      then Ok {| CNIVersion := CNIVersion conf; Name := Name conf;
                 Type_ := Type_ conf; PrevResult := PrevResult conf;
                 Kubeconfig := Kubeconfig conf;
                 AnnotationKey := DefaultAnnotationKey;
                 Delegate := Delegate conf |}
      else Ok conf
  end.

End WithEnv.
End config.

(** ** package delegate *)

Module delegate.
Section WithEnv.

Context (env : Env).

(** The part the three delegation functions share: find the plugin type,
    inject the network name, insist on CNI_PATH. *)
Definition prepareDelegate (delegateConfig networkName : string)
  : fallible (string * string) :=
  match json_Unmarshal_map env delegateConfig with
  | Err err => Err (Errorf_w "failed to parse delegate config: " err)
  | Ok delegateConf =>
      match delegateConf !! "type" with
      | Some (AnyString pluginType) =>
          if decide (pluginType = "")
          then Err (errorString "delegate config missing required 'type' field")
          else
            match json_Marshal_map env (<["name" := AnyString networkName]> delegateConf) with
            | Err err => Err (Errorf_w "failed to marshal delegate config: " err)
            | Ok delegateConfigWithName =>
                if decide (os_Getenv env "CNI_PATH" = "")
                then Err (errorString "CNI_PATH environment variable not set")
                else Ok (pluginType, delegateConfigWithName)
            end
      | _ => Err (errorString "delegate config missing required 'type' field")
      end
  end.

(** [invoke.DelegateAdd]: run the chained plugin and parse what it prints. *)
Definition invoke_DelegateAdd (pluginType netconf : string) : M (Result * goerr) :=
  fun w =>
    let c := InvokeDelegate "ADD" pluginType netconf in
    match fault env (trace w) c with
    | Some err => ((None, Some err), record c w)
    | None => ((plugin_result env (trace w) pluginType netconf, None), record c w)
    end.

Definition DelegateAdd (delegateConfig networkName stdin : string)
  : M (Result * goerr) :=
  match prepareDelegate delegateConfig networkName with
  | Err err => ret (None, Some err)
  | Ok (pluginType, delegateConfigWithName) =>
      do (res, err) <- invoke_DelegateAdd pluginType delegateConfigWithName ;;
      match err with
      | Some err =>
          ret (None, Some (Errorf_w ("delegate plugin " +:+ fmt_q env pluginType
                                     +:+ " failed: ") err))
      | None => ret (res, None)
      end
  end.

Definition DelegateDel (delegateConfig networkName stdin : string) : M goerr :=
  match prepareDelegate delegateConfig networkName with
  | Err err => ret (Some err)
  | Ok (pluginType, delegateConfigWithName) =>
      do err <- extcall env (InvokeDelegate "DEL" pluginType delegateConfigWithName) ;;
      match err with
      | Some err =>
          ret (Some (Errorf_w ("delegate plugin " +:+ fmt_q env pluginType
                               +:+ " DEL failed: ") err))
      | None => ret None
      end
  end.

Definition DelegateCheck (delegateConfig networkName stdin : string) : M goerr :=
  match prepareDelegate delegateConfig networkName with
  | Err err => ret (Some err)
  | Ok (pluginType, delegateConfigWithName) =>
      do err <- extcall env (InvokeDelegate "CHECK" pluginType delegateConfigWithName) ;;
      match err with
      | Some err =>
          ret (Some (Errorf_w ("delegate plugin " +:+ fmt_q env pluginType
                               +:+ " CHECK failed: ") err))
      | None => ret None
      end
  end.

End WithEnv.
End delegate.

(** ** package k8s *)

Module k8s.

Definition ValidFwmarkValues : gmap string bool :=
  <["0x10" := true]> (<["0x20" := true]> ∅).

(** [ValidFwmarkValues[fwmark]]: a missing key reads as false. *)
Definition validateFwmark (fwmark : string) : goerr :=
  if negb (default false (ValidFwmarkValues !! fwmark))
  then Some (errorString ("fwmark value '" +:+ fwmark
                          +:+ "' not in allowed set (0x10, 0x20)"))
  else None.

Section WithEnv.

Context (env : Env).

Definition NewClient (kubeconfigPath : string) : M (fallible Clientset) :=
  do config <-
    (if decide (kubeconfigPath = "")
     then
       do err <- extcall env RestInClusterConfig ;;
       match err with
       | Some err => ret (Some (Errorf_w "failed to create in-cluster config: " err))
       | None => ret None
       end
     else
       do err <- extcall env (OsStat kubeconfigPath) ;;
       match err with
       | Some err =>
           if os_IsNotExist err
           then ret (Some (errorString ("kubeconfig file does not exist: "
                                        +:+ kubeconfigPath)))
           else ret (Some (Errorf_w ("kubeconfig file is not readable: "
                                     +:+ kubeconfigPath +:+ ": ") err))
       | None =>
           do err <- extcall env (BuildConfigFromFlags "" kubeconfigPath) ;;
           match err with
           | Some err =>
               ret (Some (Errorf_w ("failed to build config from kubeconfig "
                                    +:+ kubeconfigPath +:+ ": ") err))
           | None => ret None
           end
       end) ;;
  match config with
  | Some err => ret (Err err)
  | None =>
      do err <- extcall env NewForConfig ;;
      match err with
      | Some err => ret (Err (Errorf_w "failed to create Kubernetes clientset: " err))
      | None => ret (Ok clientset)
      end
  end.

(** [clientset.CoreV1().Pods(namespace).Get(ctx, name, ...)]: the call can
    fail (time-out, refused connection); otherwise the store answers, with
    a NotFound status when it has no such pod. *)
Definition Pods_Get (c : Clientset) (namespace name : string) : M (fallible Pod) :=
  fun w =>
    let q := PodsGet namespace name in
    match fault env (trace w) q with
    | Some err => (Err err, record q w)
    | None =>
        match pods env !! (namespace, name) with
        | Some pod => (Ok pod, record q w)
        | None => (Err (StatusError "NotFound" ("pods " +:+ fmt_q env name +:+ " not found")),
                   record q w)
        end
    end.

Definition Namespaces_Get (c : Clientset) (name : string) : M (fallible Namespace) :=
  fun w =>
    let q := NamespacesGet name in
    match fault env (trace w) q with
    | Some err => (Err err, record q w)
    | None =>
        match namespaces env !! name with
        | Some ns => (Ok ns, record q w)
        | None => (Err (StatusError "NotFound" ("namespaces " +:+ fmt_q env name
                                                +:+ " not found")),
                   record q w)
        end
    end.

Definition GetFwmark (c : Clientset) (podName podNamespace annotationKey : string)
  : M (string * goerr) :=
  do pod <- Pods_Get c podNamespace podName ;;
  match pod with
  | Err err =>
      if IsNotFound err
      then ret ("", Some (Errorf_w ("pod " +:+ podNamespace +:+ "/" +:+ podName
                                    +:+ " not found: ") err))
      else ret ("", Some (Errorf_w ("failed to get pod " +:+ podNamespace +:+ "/"
                                    +:+ podName +:+ ": ") err))
  | Ok pod =>
      match Pod_Annotations pod !! annotationKey with
      | Some fwmark =>
          match validateFwmark fwmark with
          | Some err => ret ("", Some (Errorf_w "invalid fwmark in pod annotation: " err))
          | None => ret (fwmark, None)
          end
      | None =>
          do ns <- Namespaces_Get c podNamespace ;;
          match ns with
          | Err err =>
              if IsNotFound err
              then ret ("", Some (Errorf_w ("namespace " +:+ podNamespace
                                            +:+ " not found: ") err))
              else ret ("", Some (Errorf_w ("failed to get namespace " +:+ podNamespace
                                            +:+ ": ") err))
          | Ok ns =>
              match Namespace_Annotations ns !! annotationKey with
              | Some fwmark =>
                  match validateFwmark fwmark with
                  | Some err =>
                      ret ("", Some (Errorf_w "invalid fwmark in namespace annotation: " err))
                  | None => ret (fwmark, None)
                  end
              | None => ret ("", None)
              end
          end
      end
  end.

End WithEnv.
End k8s.

(** ** package iptables *)

Module iptables.

Definition FwmarkTenantA : string := "0x10".
Definition FwmarkTenantB : string := "0x20".
Definition tableNameMangle : string := "mangle".
Definition chainPrerouting : string := "PREROUTING".

(** The rule specification the three operations build. *)
Definition markRule (podIP fwmark : string) : rulespec :=
  ["-s"; podIP; "-j"; "MARK"; "--set-mark"; fwmark].

Section WithEnv.

Context (env : Env).

Definition validateFwmark (fwmark : string) : goerr :=
  let normalized := Strings.ToLower (Strings.TrimSpace fwmark) in
  if decide (normalized ≠ FwmarkTenantA ∧ normalized ≠ FwmarkTenantB)
  then Some (errorString ("invalid fwmark " +:+ fmt_q env fwmark +:+ ": must be "
                          +:+ FwmarkTenantA +:+ " (Tenant A) or " +:+ FwmarkTenantB
                          +:+ " (Tenant B) to avoid Cilium conflicts"))
  else None.

(** The go-iptables library over the abstract rule table.  The plugin only
    ever names the PREROUTING chain of the mangle table, and the world
    keeps that chain alone; a rule is its argument list. *)

(** [iptables.New]. *)
Definition IPTables_New : M goerr := extcall env IptablesNew.

(** [IPTables.Exists]: [iptables -C]. *)
Definition IPTables_Exists (ipt : Manager) (table chain_ : string) (rule : rulespec)
  : M (bool * goerr) :=
  fun w =>
    let q := IptablesExists table chain_ rule in
    match fault env (trace w) q with
    | Some err => ((false, Some err), record q w)
    | None => ((bool_decide (rule ∈ chain w), None), record q w)
    end.

(** [IPTables.Append]: [iptables -A], the rule goes to the end. *)
Definition IPTables_Append (ipt : Manager) (table chain_ : string) (rule : rulespec)
  : M goerr :=
  fun w =>
    let q := IptablesAppend table chain_ rule in
    match fault env (trace w) q with
    | Some err => (Some err, record q w)
    | None => (None, record q (set_chain (chain w ++ [rule]) w))
    end.

(** Remove the first occurrence of a rule. *)
Fixpoint removeFirst (rule : rulespec) (rules : list rulespec) : list rulespec :=
  match rules with
  | [] => []
  | r :: rest => if decide (r = rule) then rest else r :: removeFirst rule rest
  end.

(** [IPTables.Delete]: [iptables -D], which removes the first matching
    rule and fails when there is none. *)
Definition IPTables_Delete (ipt : Manager) (table chain_ : string) (rule : rulespec)
  : M goerr :=
  fun w =>
    let q := IptablesDelete table chain_ rule in
    match fault env (trace w) q with
    | Some err => (Some err, record q w)
    | None =>
        if bool_decide (rule ∈ chain w)
        then (None, record q (set_chain (removeFirst rule (chain w)) w))
        else (Some (errorString "iptables: Bad rule (does a matching rule exist in that chain?)."),
              record q w)
    end.

Definition NewManager : M (fallible Manager) :=
  do err <- IPTables_New ;;
  match err with
  | Some err => ret (Err (Errorf_w "failed to initialize iptables: " err))
  | None => ret (Ok manager)
  end.

Definition AddMarkRule (podIP fwmark : string) : M goerr :=
  if decide (Strings.TrimSpace podIP = "")
  then ret (Some (errorString "podIP cannot be empty"))
  else
    match net_ParseIP env podIP with
    | None => ret (Some (errorString ("invalid IP address format: " +:+ podIP)))
    | Some _ =>
        match validateFwmark fwmark with
        | Some err => ret (Some err)
        | None =>
            do mgr <- NewManager ;;
            match mgr with
            | Err err => ret (Some err)
            | Ok mgr =>
                let rulespec := markRule podIP fwmark in
                do (exists_, err) <- IPTables_Exists mgr tableNameMangle chainPrerouting rulespec ;;
                match err with
                | Some err =>
                    ret (Some (Errorf_w ("failed to check if rule exists for podIP "
                                         +:+ podIP +:+ ": ") err))
                | None =>
                    if exists_ : bool then ret None
                    else
                      do err <- IPTables_Append mgr tableNameMangle chainPrerouting rulespec ;;
                      match err with
                      | Some err =>
                          ret (Some (Errorf_w ("failed to add mark rule for podIP "
                                               +:+ podIP +:+ " with fwmark " +:+ fwmark
                                               +:+ ": ") err))
                      | None => ret None
                      end
                end
            end
        end
    end.

Definition RuleExists (podIP fwmark : string) : M (bool * goerr) :=
  if decide (Strings.TrimSpace podIP = "")
  then ret (false, Some (errorString "podIP cannot be empty"))
  else
    match net_ParseIP env podIP with
    | None => ret (false, Some (errorString ("invalid IP address format: " +:+ podIP)))
    | Some _ =>
        match validateFwmark fwmark with
        | Some err => ret (false, Some err)
        | None =>
            do mgr <- NewManager ;;
            match mgr with
            | Err err => ret (false, Some err)
            | Ok mgr =>
                let rulespec := markRule podIP fwmark in
                do (exists_, err) <- IPTables_Exists mgr tableNameMangle chainPrerouting rulespec ;;
                match err with
                | Some err =>
                    ret (false, Some (Errorf_w ("failed to check if rule exists for podIP "
                                                +:+ podIP +:+ ": ") err))
                | None => ret (exists_, None)
                end
            end
        end
    end.

Definition DeleteMarkRule (podIP fwmark : string) : M goerr :=
  if decide (Strings.TrimSpace podIP = "")
  then ret (Some (errorString "podIP cannot be empty"))
  else
    match net_ParseIP env podIP with
    | None => ret (Some (errorString ("invalid IP address format: " +:+ podIP)))
    | Some _ =>
        match validateFwmark fwmark with
        | Some err => ret (Some err)
        | None =>
            do mgr <- NewManager ;;
            match mgr with
            | Err err => ret (Some err)
            | Ok mgr =>
                let rulespec := markRule podIP fwmark in
                do (exists_, err) <- IPTables_Exists mgr tableNameMangle chainPrerouting rulespec ;;
                match err with
                | Some err =>
                    ret (Some (Errorf_w ("failed to check if rule exists for podIP "
                                         +:+ podIP +:+ ": ") err))
                | None =>
                    if negb exists_ then ret None
                    else
                      do err <- IPTables_Delete mgr tableNameMangle chainPrerouting rulespec ;;
                      match err with
                      | Some err =>
                          ret (Some (Errorf_w ("failed to delete mark rule for podIP "
                                               +:+ podIP +:+ " with fwmark " +:+ fwmark
                                               +:+ ": ") err))
                      | None => ret None
                      end
                end
            end
        end
    end.

End WithEnv.
End iptables.

(** ** package main *)

Module main.

(** One step of the loop over the [;]-separated pairs. *)
Definition scanPair (acc : string * string) (pair : string) : string * string :=
  let '(podName, podNamespace) := acc in
  match Strings.SplitN2 pair "=" with
  | [k; v] =>
      if decide (k = "K8S_POD_NAME") then (v, podNamespace)
      else if decide (k = "K8S_POD_NAMESPACE") then (podName, v)
      else (podName, podNamespace)
  | _ => (podName, podNamespace)
  end.

Definition parseCNIArgs (cniArgs : string) : string * string * goerr :=
  if decide (cniArgs = "")
  then ("", "", Some (errorString "CNI_ARGS is empty"))
  else
    let '(podName, podNamespace) :=
      fold_left scanPair (Strings.Split cniArgs ";") ("", "") in
    if decide (podName = "")
    then ("", "", Some (errorString "K8S_POD_NAME not found in CNI_ARGS"))
    else if decide (podNamespace = "")
    then ("", "", Some (errorString "K8S_POD_NAMESPACE not found in CNI_ARGS"))
    else (podName, podNamespace, None).

Section WithEnv.

Context (env : Env).

(** The three handlers.  A handler returns its error ([None] for nil) or
    panics; it panics where [ExtractPodIP] does, and then does nothing
    more. *)
Definition cmdAdd (args : CmdArgs) : M (completion goerr) :=
  match config.ParseConfig env (StdinData args) with
  | Err err => ret (Returns (Some (Errorf_w "failed to parse config: " err)))
  | Ok pluginConf =>
      let '(podName, podNamespace, err) := parseCNIArgs (Args args) in
      match err with
      | Some err => ret (Returns (Some (Errorf_w "failed to parse CNI_ARGS: " err)))
      | None =>
          do (delegateResult, err) <-
            delegate.DelegateAdd env (Delegate pluginConf) (Name pluginConf)
                                 (StdinData args) ;;
          match err with
          | Some err => ret (Returns (Some (Errorf_w "delegation failed: " err)))
          | None =>
              match result.ExtractPodIP delegateResult with
              | Panics => ret Panics
              | Returns (podIP, err) =>
              match err with
              | Some err =>
                  ret (Returns (Some (Errorf_w "failed to extract pod IP from delegate result: "
                                               err)))
              | None =>
                  do c <- k8s.NewClient env (Kubeconfig pluginConf) ;;
                  match c with
                  | Err err =>
                      log_Printf ("WARNING: failed to create K8s client, skipping fwmark setup: "
                                  +:+ Error err) ;;
                      do err <- types_PrintResult env delegateResult (CNIVersion pluginConf) ;;
                          ret (Returns err)
                  | Ok c =>
                      do (fwmark, err) <-
                        k8s.GetFwmark env c podName podNamespace (AnnotationKey pluginConf) ;;
                      match err with
                      | Some err =>
                          log_Printf ("WARNING: failed to get fwmark annotation for "
                                      +:+ podNamespace +:+ "/" +:+ podName +:+ ": "
                                      +:+ Error err) ;;
                          do err <- types_PrintResult env delegateResult (CNIVersion pluginConf) ;;
                          ret (Returns err)
                      | None =>
                          (if decide (fwmark ≠ "")
                           then
                             do err <- iptables.AddMarkRule env podIP fwmark ;;
                             match err with
                             | Some err =>
                                 log_Printf ("WARNING: failed to add iptables rule for pod "
                                             +:+ podNamespace +:+ "/" +:+ podName
                                             +:+ " (IP: " +:+ podIP +:+ ", fwmark: "
                                             +:+ fwmark +:+ "): " +:+ Error err)
                             | None =>
                                 log_Printf ("INFO: added iptables MARK rule for pod "
                                             +:+ podNamespace +:+ "/" +:+ podName
                                             +:+ ": -s " +:+ podIP
                                             +:+ " -j MARK --set-mark " +:+ fwmark)
                             end
                           else ret tt) ;;
                          do err <- types_PrintResult env delegateResult (CNIVersion pluginConf) ;;
                          ret (Returns err)
                      end
                  end
              end
              end
          end
      end
  end.

(** The keys of [k8s.ValidFwmarkValues] in the order this run's [range]
    visits them. *)
Definition rangeValidFwmarkValues : list string :=
  let keys := (map_to_list k8s.ValidFwmarkValues).*1 in
  rangeOrder (range_pick env) (length keys) keys.

Definition cleanupIptablesRules (podIP : string) : M unit :=
  forEach rangeValidFwmarkValues (fun fwmark =>
    do err <- iptables.DeleteMarkRule env podIP fwmark ;;
    match err with
    | Some err =>
        log_Printf ("DEBUG: DeleteMarkRule(" +:+ podIP +:+ ", " +:+ fwmark
                    +:+ ") failed: " +:+ Error err)
    | None => ret tt
    end).

Definition cmdDel (args : CmdArgs) : M (completion goerr) :=
  match config.ParseConfig env (StdinData args) with
  | Err err =>
      log_Printf ("WARNING: failed to parse config in DEL: " +:+ Error err) ;;
      ret (Returns None)
  | Ok pluginConf =>
      let '(podName, podNamespace, err) := parseCNIArgs (Args args) in
      (match err with
       | Some err => log_Printf ("WARNING: failed to parse CNI_ARGS in DEL: " +:+ Error err)
       | None => ret tt
       end) ;;
      do extracted <-
        (match PrevResult pluginConf with
         | Some _ =>
             match result.ExtractPodIP (PrevResult pluginConf) with
             | Panics => ret Panics
             | Returns (podIP, err) =>
                 match err with
                 | Some err =>
                     log_Printf ("WARNING: failed to extract pod IP from prevResult: "
                                 +:+ Error err) ;;
                     ret (Returns podIP)
                 | None => ret (Returns podIP)
                 end
             end
         | None => ret (Returns "")
         end) ;;
      match extracted with
      | Panics => ret Panics
      | Returns podIP =>
      do err <- delegate.DelegateDel env (Delegate pluginConf) (Name pluginConf)
                                     (StdinData args) ;;
      (match err with
       | Some err => log_Printf ("WARNING: delegate DEL failed: " +:+ Error err)
       | None => ret tt
       end) ;;
      if decide (podIP ≠ "" ∧ podName ≠ "" ∧ podNamespace ≠ "")
      then
        do c <- k8s.NewClient env (Kubeconfig pluginConf) ;;
        match c with
        | Err err =>
            log_Printf ("WARNING: failed to create K8s client for cleanup: " +:+ Error err) ;;
            ret (Returns None)
        | Ok c =>
            do (fwmark, err) <-
              k8s.GetFwmark env c podName podNamespace (AnnotationKey pluginConf) ;;
            match err with
            | Some err =>
                log_Printf ("INFO: could not get fwmark for cleanup (pod may be deleted): "
                            +:+ Error err) ;;
                cleanupIptablesRules podIP ;;
                ret (Returns None)
            | None =>
                (if decide (fwmark ≠ "")
                 then
                   do err <- iptables.DeleteMarkRule env podIP fwmark ;;
                   match err with
                   | Some err =>
                       log_Printf ("WARNING: failed to delete iptables rule for pod "
                                   +:+ podNamespace +:+ "/" +:+ podName
                                   +:+ " (IP: " +:+ podIP +:+ ", fwmark: "
                                   +:+ fwmark +:+ "): " +:+ Error err)
                   | None =>
                       log_Printf ("INFO: deleted iptables MARK rule for pod "
                                   +:+ podNamespace +:+ "/" +:+ podName
                                   +:+ ": -s " +:+ podIP
                                   +:+ " -j MARK --set-mark " +:+ fwmark)
                   end
                 else ret tt) ;;
                ret (Returns None)
            end
        end
      else if decide (podIP ≠ "")
      then
        log_Printf ("INFO: cleaning up any iptables rules for IP " +:+ podIP
                    +:+ " (pod info unavailable)") ;;
        cleanupIptablesRules podIP ;;
        ret (Returns None)
      else ret (Returns None)
      end
  end.

(** The error [cmdCheck] reports when the annotation asks for a rule that
    the host does not have. *)
Definition driftError (fwmark podNamespace podName podIP : string) : error :=
  errorString ("configuration drift detected: fwmark annotation " +:+ fwmark
               +:+ " present for pod " +:+ podNamespace +:+ "/" +:+ podName
               +:+ " (IP: " +:+ podIP +:+ ") but iptables rule missing").

Definition cmdCheck (args : CmdArgs) : M (completion goerr) :=
  match config.ParseConfig env (StdinData args) with
  | Err err => ret (Returns (Some (Errorf_w "failed to parse config: " err)))
  | Ok pluginConf =>
      do err <- delegate.DelegateCheck env (Delegate pluginConf) (Name pluginConf)
                                       (StdinData args) ;;
      match err with
      | Some err => ret (Returns (Some (Errorf_w "delegate CHECK failed: " err)))
      | None =>
          let '(podName, podNamespace, err) := parseCNIArgs (Args args) in
          match err with
          | Some err =>
              log_Printf ("WARNING: CHECK cannot verify iptables - failed to parse CNI_ARGS: "
                          +:+ Error err) ;;
              ret (Returns None)
          | None =>
              match PrevResult pluginConf with
              | None =>
                  log_Printf "WARNING: CHECK cannot verify iptables - no prevResult available" ;;
                  ret (Returns None)
              | Some _ =>
                  match result.ExtractPodIP (PrevResult pluginConf) with
                  | Panics => ret Panics
                  | Returns (podIP, err) =>
                  match err with
                  | Some err =>
                      log_Printf ("WARNING: CHECK cannot verify iptables - failed to extract pod IP: "
                                  +:+ Error err) ;;
                      ret (Returns None)
                  | None =>
                      do c <- k8s.NewClient env (Kubeconfig pluginConf) ;;
                      match c with
                      | Err err =>
                          log_Printf ("WARNING: CHECK cannot verify iptables - failed to create K8s client: "
                                      +:+ Error err) ;;
                          ret (Returns None)
                      | Ok c =>
                          do (fwmark, err) <-
                            k8s.GetFwmark env c podName podNamespace
                                          (AnnotationKey pluginConf) ;;
                          match err with
                          | Some err =>
                              log_Printf ("WARNING: CHECK cannot verify iptables - failed to get fwmark annotation: "
                                          +:+ Error err) ;;
                              ret (Returns None)
                          | None =>
                              if decide (fwmark ≠ "")
                              then
                                do (exists_, err) <- iptables.RuleExists env podIP fwmark ;;
                                match err with
                                | Some err =>
                                    log_Printf ("WARNING: CHECK cannot verify iptables rule existence: "
                                                +:+ Error err) ;;
                                    ret (Returns None)
                                | None =>
                                    if negb exists_
                                    then ret (Returns (Some (driftError fwmark podNamespace podName podIP)))
                                    else
                                      log_Printf ("INFO: CHECK verified iptables rule exists for pod "
                                                  +:+ podNamespace +:+ "/" +:+ podName
                                                  +:+ " (IP: " +:+ podIP +:+ ", fwmark: "
                                                  +:+ fwmark +:+ ")") ;;
                                      ret (Returns None)
                                end
                              else ret (Returns None)
                          end
                      end
                  end
                  end
              end
          end
      end
  end.

End WithEnv.
End main.

(** ** Vocabulary of the properties *)

(** The address list of a result of one of the two known shapes: for each
    entry its [Address.IP], or [None] for a nil entry. *)
Definition addresses (rv : ResultValue) : option (list (option IP)) :=
  match rv with
  | R100 r => Some (map (option_map (fun c => IPNet_IP (Address100 c))) (IPs100 r))
  | R040 r => Some (map (option_map (fun c => IPNet_IP (Address040 c))) (IPs040 r))
  | ROther _ => None
  end.

(** The routing tags of the allow-list. *)
Definition allowListed (tag : string) : Prop := tag = "0x10" ∨ tag = "0x20".

(** The argument string has no pair [key=value] with a non-empty value. *)
Definition lacksKey (key cniArgs : string) : Prop :=
  ∀ v, (key +:+ "=" +:+ v) ∈ Strings.Split cniArgs ";" → v = "".

(** The calls that reach the iptables tool. *)
Definition isIptablesCall (c : call) : Prop :=
  match c with
  | IptablesNew | IptablesExists _ _ _ | IptablesAppend _ _ _ | IptablesDelete _ _ _ => True
  | _ => False
  end.

(** The calls that run the chained plugin. *)
Definition isDelegateCall (c : call) : Prop :=
  match c with
  | InvokeDelegate _ _ _ => True
  | _ => False
  end.

(** The calls that write a result on standard output. *)
Definition isPrintCall (c : call) : Prop :=
  match c with
  | PrintResult _ _ => True
  | _ => False
  end.

(** The rule tool answers every call without failing. *)
Definition toolReliable (env : Env) : Prop :=
  ∀ h c, isIptablesCall c → fault env h c = None.

(** An address and a tag that pass the manager's validation. *)
Definition validPair (env : Env) (podIP fwmark : string) : Prop :=
  Strings.TrimSpace podIP ≠ "" ∧ net_ParseIP env podIP ≠ None
  ∧ iptables.validateFwmark env fwmark = None.

(** How many times a rule occurs in a chain. *)
Fixpoint occurrences (rule : rulespec) (rules : list rulespec) : nat :=
  match rules with
  | [] => 0
  | r :: rest => (if decide (r = rule) then 1 else 0) + occurrences rule rest
  end.

(** ** A concrete environment, for the examples *)

Module Demo.

Definition dquote : string := String (ascii_of_N 34) EmptyString.
Definition backslash : string := String (ascii_of_N 92) EmptyString.

(** A JSON string literal, for text that needs no escape. *)
Definition jstr (s : string) : string := dquote +:+ s +:+ dquote.

(** [strconv.Quote], which [%q] prints, on ASCII text: the quote and the
    backslash get a backslash, a control character is written as its
    letter escape or as [\xNN], every other character stands for itself.
    Bytes above 127 are copied, which is what Go does for the printable
    runes they encode; the examples quote ASCII text only. *)
Definition quoteByte (c : ascii) : string :=
  let n := N_of_ascii c in
  if (n =? 34)%N then backslash +:+ dquote
  else if (n =? 92)%N then backslash +:+ backslash
  else if (n =? 7)%N then backslash +:+ "a"
  else if (n =? 8)%N then backslash +:+ "b"
  else if (n =? 12)%N then backslash +:+ "f"
  else if (n =? 10)%N then backslash +:+ "n"
  else if (n =? 13)%N then backslash +:+ "r"
  else if (n =? 9)%N then backslash +:+ "t"
  else if (n =? 11)%N then backslash +:+ "v"
  else if (n <? 32)%N || (n =? 127)%N
       then backslash +:+ "x" +:+ hexDigit (n / 16) +:+ hexDigit (n mod 16)
       else String c EmptyString.

Definition quote (s : string) : string :=
  dquote +:+ Strings.Join (map quoteByte (list_ascii_of_string s)) "" +:+ dquote.

Definition jobj (fields : list (string * string)) : string :=
  "{" +:+ Strings.Join (map (fun kv => jstr kv.1 +:+ ":" +:+ kv.2) fields) "," +:+ "}".

Definition delegateJSON : string :=
  jobj [("type", jstr "ptp"); ("cniVersion", jstr "1.0.0")].

Definition prevResultJSON : string :=
  jobj [("cniVersion", jstr "1.0.0");
        ("ips", "[" +:+ jobj [("address", jstr "10.200.1.5/24")] +:+ "]")].

(** The configuration of the handler tests. *)
Definition stdin : string :=
  jobj [("cniVersion", jstr "1.0.0"); ("name", jstr "test-network");
        ("type", jstr "tenant-routing-wrapper");
        ("kubeconfig", jstr "/etc/cni/net.d/kubeconfig");
        ("delegate", delegateJSON)].

(** The same with the result of an earlier ADD. *)
Definition stdinPrev : string :=
  jobj [("cniVersion", jstr "1.0.0"); ("name", jstr "test-network");
        ("type", jstr "tenant-routing-wrapper");
        ("kubeconfig", jstr "/etc/cni/net.d/kubeconfig");
        ("delegate", delegateJSON); ("prevResult", prevResultJSON)].

(** A configuration without the delegate. *)
Definition stdinNoDelegate : string :=
  jobj [("cniVersion", jstr "1.0.0"); ("name", jstr "test-network");
        ("type", jstr "tenant-routing-wrapper");
        ("kubeconfig", jstr "/etc/cni/net.d/kubeconfig")].

Definition ip4 (a b c d : byte) : IP :=
  Some [x00; x00; x00; x00; x00; x00; x00; x00; x00; x00; xff; xff; a; b; c; d].

Definition ipv6Only : IP :=
  Some [x20; x01; x0d; xb8; x00; x00; x00; x00; x00; x00; x00; x00; x00; x00; x00; x01].

Definition entry (ip : IP) : IPConfig100 :=
  {| Interface100 := None;
     Address100 := {| IPNet_IP := ip; IPNet_Mask := [xff; xff; xff; x00] |};
     Gateway100 := None |}.

Definition podResult : Result :=
  Some (R100 {| CNIVersion100 := "1.0.0";
                IPs100 := [Some (entry (ip4 x0a xc8 x01 x05))] |}).

(** What the decoder makes of the test configurations: the fields with a
    JSON key are filled, [PrevResult] stays nil whether or not the text has
    a [prevResult] object. *)
Definition conf (delegateConfig : string) : PluginConf :=
  {| CNIVersion := "1.0.0"; Name := "test-network";
     Type_ := "tenant-routing-wrapper"; PrevResult := None;
     Kubeconfig := "/etc/cni/net.d/kubeconfig"; AnnotationKey := "";
     Delegate := delegateConfig |}.

(** What [ParseConfig] makes of them: the default annotation key is filled
    in. *)
Definition parsed : PluginConf :=
  {| CNIVersion := "1.0.0"; Name := "test-network";
     Type_ := "tenant-routing-wrapper"; PrevResult := None;
     Kubeconfig := "/etc/cni/net.d/kubeconfig";
     AnnotationKey := "tenant.routing/fwmark";
     Delegate := delegateJSON |}.

Definition unmarshalConf (data : string) : fallible PluginConf :=
  if decide (data = stdin) then Ok (conf delegateJSON)
  else if decide (data = stdinPrev) then Ok (conf delegateJSON)
  else if decide (data = stdinNoDelegate) then Ok (conf "")
  else Err (errorString "invalid character 'i' looking for beginning of object key string").

Definition unmarshalConf_PrevResult (data : string) (c : PluginConf) :
  unmarshalConf data = Ok c → PrevResult c = None.
Proof. unfold unmarshalConf. repeat case_decide; by intros [= <-]. Qed.

Definition unmarshalMap (data : string) : fallible (gmap string any) :=
  if decide (data = delegateJSON)
  then Ok (<["type" := AnyString "ptp"]> (<["cniVersion" := AnyString "1.0.0"]> ∅))
  else Err (errorString "invalid character 'i' looking for beginning of object key string").

Definition marshalAny (v : any) : string :=
  match v with
  | AnyString s => jstr s
  | AnyOther raw => raw
  end.

Definition marshalMap (m : gmap string any) : fallible string :=
  Ok (jobj (map (fun kv => (kv.1, marshalAny kv.2)) (map_to_list m))).

(** A decimal field of a dotted quad. *)
Definition parseField (s : string) : option N :=
  let ds := map (fun c => (Strings.byte_of c - 48)%N) (list_ascii_of_string s) in
  let digits := forallb (fun c => (48 <=? Strings.byte_of c)%N && (Strings.byte_of c <=? 57)%N)
                        (list_ascii_of_string s) in
  let n := fold_left (fun acc d => (10 * acc + d)%N) ds 0%N in
  if digits && (1 <=? length ds)%nat && (length ds <=? 3)%nat && (n <=? 255)%N
     && negb ((2 <=? length ds)%nat && Strings.HasPrefix s "0")
  then Some n else None.

(** An IPv4-only stand-in for [net.ParseIP]. *)
Definition parseIP (s : string) : IP :=
  match map parseField (Strings.Split s ".") with
  | [Some a; Some b; Some c; Some d] =>
      match Byte.of_N a, Byte.of_N b, Byte.of_N c, Byte.of_N d with
      | Some a, Some b, Some c, Some d => ip4 a b c d
      | _, _, _, _ => None
      end
  | _ => None
  end.

Definition annotated (fwmark : string) : gmap string string :=
  <["tenant.routing/fwmark" := fwmark]> ∅.

(** A healthy host: every call succeeds, pod [production/web] carries the
    tag 0x10, pod [production/plain] carries none. *)
Definition env : Env :=
  {| json_Unmarshal_conf := unmarshalConf;
     json_Unmarshal_conf_PrevResult := unmarshalConf_PrevResult;
     json_Unmarshal_map := unmarshalMap;
     json_Marshal_map := marshalMap;
     net_ParseIP := parseIP;
     fmt_q := quote;
     os_Getenv := fun name => if decide (name = "CNI_PATH") then "/opt/cni/bin" else "";
     fault := fun _ _ => None;
     plugin_result := fun _ _ _ => podResult;
     pods := <[("production", "web") := {| Pod_Annotations := annotated "0x10" |}]>
               (<[("production", "plain") := {| Pod_Annotations := ∅ |}]> ∅);
     namespaces := <["production" := {| Namespace_Annotations := ∅ |}]> ∅;
     range_pick := fun _ => 0%nat |}.

(** The same host with chosen calls failing. *)
Definition failing (bad : call -> bool) : Env :=
  {| json_Unmarshal_conf := unmarshalConf;
     json_Unmarshal_conf_PrevResult := unmarshalConf_PrevResult;
     json_Unmarshal_map := unmarshalMap;
     json_Marshal_map := marshalMap;
     net_ParseIP := parseIP;
     fmt_q := quote;
     os_Getenv := os_Getenv env;
     fault := fun _ c => if bad c then Some (errorString "exit status 1") else None;
     plugin_result := plugin_result env;
     pods := pods env;
     namespaces := namespaces env;
     range_pick := range_pick env |}.

(** The same host with a chained plugin that prints the given result. *)
Definition answering (res : Result) : Env :=
  {| json_Unmarshal_conf := unmarshalConf;
     json_Unmarshal_conf_PrevResult := unmarshalConf_PrevResult;
     json_Unmarshal_map := unmarshalMap;
     json_Marshal_map := marshalMap;
     net_ParseIP := parseIP;
     fmt_q := quote;
     os_Getenv := os_Getenv env;
     fault := fault env;
     plugin_result := fun _ _ _ => res;
     pods := pods env;
     namespaces := namespaces env;
     range_pick := range_pick env |}.

Definition world0 : World := {| chain := []; trace := [] |}.

Definition cmdArgs (cniArgs data : string) : CmdArgs :=
  {| ContainerID := "test-container-123"; Netns := "/var/run/netns/test";
     IfName := "eth0"; Args := cniArgs; Path := "/opt/cni/bin"; StdinData := data |}.

End Demo.

(** The world after an optional warning: the line is logged only when there
    is an error to report. *)
Definition warned (prefix : string) (err : goerr) (w : World) : World :=
  match err with
  | Some e => record (LogPrintf (prefix +:+ Error e)) w
  | None => w
  end.

(** Running [m] only appends calls that satisfy [P]. *)
Definition emits {A : Type} (P : call → Prop) (m : M A) : Prop :=
  ∀ w, ∃ evs, trace (m w).2 = (trace w ++ evs)%list ∧ Forall P evs.

Definition notPrint (c : call) : Prop := ¬ isPrintCall c.

(** [m] makes calls that print nothing and then, as its last act, prints
    [res]; what it returns is what that print returns. *)
Definition endsPrinting (env : Env) (res : Result) (version : string)
    (m : M (completion goerr)) : Prop :=
  ∀ w, ∃ evs,
    trace (m w).2 = (trace w ++ evs ++ [PrintResult res version])%list
    ∧ Forall notPrint evs
    ∧ (m w).1 = Returns (fault env (trace w ++ evs) (PrintResult res version)).

(** ** Proof automation *)

(** Case analysis on whatever the next [match] of the goal inspects. *)
Ltac branch :=
  match goal with
  | |- context [match ?x with _ => _ end] =>
      lazymatch x with
      | context [match _ with _ => _ end] => fail
      | _ => destruct x eqn:?
      end
  end.

(** Unfold the monad. *)
Ltac run := unfold bind, ret, log_Printf; cbn beta iota.


(** ** Vocabulary of the further properties *)

(** The character occurs in the string. *)
Fixpoint mentions (c : ascii) (s : string) : bool :=
  match s with
  | EmptyString => false
  | String a s' => if Ascii.eqb a c then true else mentions c s'
  end.

(** One piece of an argument string: a [key=value] pair, or text without
    [=]. *)
Definition piece : Type := string * option string.

Definition renderPiece (p : piece) : string :=
  match p.2 with
  | Some v => p.1 +:+ "=" +:+ v
  | None => p.1
  end.

(** The key has no [=] or [;], the value no [;] (it may have [=]). *)
Definition wellFormedPiece (p : piece) : Prop :=
  mentions ";" p.1 = false ∧ mentions "=" p.1 = false
  ∧ match p.2 with
    | Some v => mentions ";" v = false
    | None => True
    end.

(** The value of the last pair with the given key, [init] when there is
    none. *)
Definition lastValue (key : string) (init : string) (pieces : list piece) : string :=
  fold_left (fun acc p =>
               match p.2 with
               | Some v => if decide (p.1 = key) then v else acc
               | None => acc
               end) pieces init.

(** Every world [m] can lead to is related to the one it started from. *)
Definition respects {A : Type} (R : World → World → Prop) (m : M A) : Prop :=
  ∀ w, R w (m w).2.

(** The rule table is the same. *)
Definition sameChain (w w' : World) : Prop := chain w' = chain w.

(** No rule occurs more often than before. *)
Definition noRuleAdded (w w' : World) : Prop :=
  ∀ rule, (occurrences rule (chain w') ≤ occurrences rule (chain w))%nat.

(** The given rule occurs as often as before. *)
Definition ruleUntouched (rule : rulespec) (w w' : World) : Prop :=
  occurrences rule (chain w') = occurrences rule (chain w).

(** [AddMarkRule] or [DeleteMarkRule], chosen by a flag. *)
Definition markOp (env : Env) (add : bool) (podIP fwmark : string) : M goerr :=
  if add then iptables.AddMarkRule env podIP fwmark
  else iptables.DeleteMarkRule env podIP fwmark.

(** What one mark operation does to the number of occurrences of its rule,
    over a tool that answers. *)
Definition markCount (add : bool) (n : nat) : nat :=
  if add then Nat.max 1 n else Nat.pred n.

(** No rule occurs less often than before. *)
Definition noRuleRemoved (w w' : World) : Prop :=
  ∀ rule, (occurrences rule (chain w) ≤ occurrences rule (chain w'))%nat.

(** The calls [cmdAdd] can make: no rule deletion, no in-cluster
    configuration, and of the chained plugin only ADD. *)
Definition addCalls (c : call) : Prop :=
  match c with
  | InvokeDelegate command _ _ => command = "ADD"
  | RestInClusterConfig | IptablesDelete _ _ _ => False
  | _ => True
  end.

(** The calls [cmdDel] can make: nothing appended, nothing printed, no
    in-cluster configuration, and of the chained plugin only DEL. *)
Definition delCalls (c : call) : Prop :=
  match c with
  | InvokeDelegate command _ _ => command = "DEL"
  | RestInClusterConfig | IptablesAppend _ _ _ | PrintResult _ _ => False
  | _ => True
  end.

(** The calls [cmdCheck] can make: the rule table is only read, nothing is
    printed, no in-cluster configuration, and of the chained plugin only
    CHECK. *)
Definition checkCalls (c : call) : Prop :=
  match c with
  | InvokeDelegate command _ _ => command = "CHECK"
  | RestInClusterConfig | IptablesAppend _ _ _ | IptablesDelete _ _ _
  | PrintResult _ _ => False
  | _ => True
  end.

(** The call is in the trace after [m], whatever the world [m] starts in. *)
Definition calls {A : Type} (c : call) (m : M A) : Prop :=
  ∀ w, c ∈ trace (m w).2.

(** Any call at all. *)
Definition anyCall (c : call) : Prop := True.

(** * Properties *)

(** ** Invocation arguments *)

Lemma Cut_spec (s : string) (sep : ascii) (before after : string) :
  Strings.Cut s sep = Some (before, after) → s = before +:+ String sep after.
Proof.
  revert before. induction s as [|c s IH]; intros before; cbn; [done|].
  destruct (Ascii.eqb_spec c sep) as [-> | _].
  - by intros [= <- <-].
  - destruct (Strings.Cut s sep) as [[b a]|]; [|done].
    intros [= <- <-]. unfold String.append; fold String.append. f_equal. by apply IH.
Qed.

Lemma SplitN2_pair (pair k v : string) :
  Strings.SplitN2 pair "=" = [k; v] → pair = k +:+ "=" +:+ v.
Proof.
  unfold Strings.SplitN2. destruct (Strings.Cut pair "=") as [[b a]|] eqn:E; [|done].
  intros [= <- <-]. by apply Cut_spec in E.
Qed.

Lemma scanPair_podName (acc : string * string) (pair : string) :
  (∀ v, pair = "K8S_POD_NAME" +:+ "=" +:+ v → v = "") →
  acc.1 = "" → (main.scanPair acc pair).1 = "".
Proof.
  intros Hpair Hacc. destruct acc as [n ns]. unfold main.scanPair.
  destruct (Strings.SplitN2 pair "=") as [|k [|v [|? ?]]] eqn:E; try done.
  apply SplitN2_pair in E. repeat case_decide; subst; cbn; auto.
Qed.

Lemma scanPair_podNamespace (acc : string * string) (pair : string) :
  (∀ v, pair = "K8S_POD_NAMESPACE" +:+ "=" +:+ v → v = "") →
  acc.2 = "" → (main.scanPair acc pair).2 = "".
Proof.
  intros Hpair Hacc. destruct acc as [n ns]. unfold main.scanPair.
  destruct (Strings.SplitN2 pair "=") as [|k [|v [|? ?]]] eqn:E; try done.
  apply SplitN2_pair in E. repeat case_decide; subst; cbn; auto.
Qed.

Lemma scan_podName (pairs : list string) (acc : string * string) :
  (∀ v, ("K8S_POD_NAME" +:+ "=" +:+ v) ∈ pairs → v = "") →
  acc.1 = "" → (fold_left main.scanPair pairs acc).1 = "".
Proof.
  revert acc. induction pairs as [|pair pairs IH]; intros acc Hpairs Hacc; [done|].
  cbn [fold_left]. apply IH.
  - intros v Hv. apply Hpairs. by right.
  - apply scanPair_podName; [|done]. intros v ->. apply Hpairs. by left.
Qed.

Lemma scan_podNamespace (pairs : list string) (acc : string * string) :
  (∀ v, ("K8S_POD_NAMESPACE" +:+ "=" +:+ v) ∈ pairs → v = "") →
  acc.2 = "" → (fold_left main.scanPair pairs acc).2 = "".
Proof.
  revert acc. induction pairs as [|pair pairs IH]; intros acc Hpairs Hacc; [done|].
  cbn [fold_left]. apply IH.
  - intros v Hv. apply Hpairs. by right.
  - apply scanPair_podNamespace; [|done]. intros v ->. apply Hpairs. by left.
Qed.

Lemma parseCNIArgs_lacking (cniArgs : string) :
  lacksKey "K8S_POD_NAME" cniArgs ∨ lacksKey "K8S_POD_NAMESPACE" cniArgs →
  ∃ err, main.parseCNIArgs cniArgs = ("", "", Some err).
Proof.
  intros Hlack. unfold main.parseCNIArgs.
  case_decide; [by eexists|].
  destruct (fold_left main.scanPair (Strings.Split cniArgs ";") ("", ""))
    as [n ns] eqn:E.
  destruct Hlack as [Hn | Hns].
  - pose proof (scan_podName _ ("", "") Hn eq_refl) as H0. rewrite E in H0.
    cbn in H0. subst n. rewrite decide_True by done. by eexists.
  - pose proof (scan_podNamespace _ ("", "") Hns eq_refl) as H0. rewrite E in H0.
    cbn in H0. subst ns. case_decide; [by eexists|]. rewrite decide_True by done.
    by eexists.
Qed.

Lemma parseCNIArgs_ok (cniArgs podName podNamespace : string) :
  main.parseCNIArgs cniArgs = (podName, podNamespace, None) →
  podName ≠ "" ∧ podNamespace ≠ "".
Proof.
  unfold main.parseCNIArgs. repeat (branch; try done). by intros [= <- <-].
Qed.

Lemma parseCNIArgs_err (cniArgs podName podNamespace : string) (err : error) :
  main.parseCNIArgs cniArgs = (podName, podNamespace, Some err) →
  podName = "" ∧ podNamespace = "".
Proof.
  unfold main.parseCNIArgs. repeat (branch; try done); by intros [= <- <-].
Qed.


(** ** What an action adds to the trace *)

Section Emits.

Context (P : call → Prop).

Lemma emits_ret {A : Type} (a : A) : emits P (ret a).
Proof. intros w. exists []. by rewrite app_nil_r. Qed.

Lemma emits_bind {A B : Type} (m : M A) (k : A → M B) :
  emits P m → (∀ a, emits P (k a)) → emits P (bind m k).
Proof.
  intros Hm Hk w. unfold bind. destruct (Hm w) as (evs1 & Htr1 & HP1).
  destruct (m w) as [a w1]. destruct (Hk a w1) as (evs2 & Htr2 & HP2).
  exists (evs1 ++ evs2)%list. cbn in *. rewrite Htr2, Htr1, app_assoc.
  split; [done|]. by apply Forall_app.
Qed.

Lemma emits_one {A : Type} (c : call) (m : M A) :
  P c → (∀ w, trace (m w).2 = (trace w ++ [c])%list) → emits P m.
Proof.
  intros Hc Hm w. exists [c]. split; [done|]. by apply Forall_singleton.
Qed.

Lemma emits_extcall (env : Env) (c : call) : P c → emits P (extcall env c).
Proof. intros Hc. by apply (emits_one c). Qed.

Lemma emits_log (line : string) : P (LogPrintf line) → emits P (log_Printf line).
Proof. intros Hc. by apply (emits_one (LogPrintf line)). Qed.

Lemma emits_Pods_Get (env : Env) (c : Clientset) (namespace name : string) :
  P (PodsGet namespace name) → emits P (k8s.Pods_Get env c namespace name).
Proof.
  intros Hc. apply (emits_one (PodsGet namespace name)); [done|]. intros w.
  unfold k8s.Pods_Get. by repeat branch.
Qed.

Lemma emits_Namespaces_Get (env : Env) (c : Clientset) (name : string) :
  P (NamespacesGet name) → emits P (k8s.Namespaces_Get env c name).
Proof.
  intros Hc. apply (emits_one (NamespacesGet name)); [done|]. intros w.
  unfold k8s.Namespaces_Get. by repeat branch.
Qed.

Lemma emits_IPTables_Exists (env : Env) (ipt : Manager) (table chain_ : string)
    (rule : rulespec) :
  P (IptablesExists table chain_ rule) →
  emits P (iptables.IPTables_Exists env ipt table chain_ rule).
Proof.
  intros Hc. apply (emits_one (IptablesExists table chain_ rule)); [done|]. intros w.
  unfold iptables.IPTables_Exists. by repeat branch.
Qed.

Lemma emits_IPTables_Append (env : Env) (ipt : Manager) (table chain_ : string)
    (rule : rulespec) :
  P (IptablesAppend table chain_ rule) →
  emits P (iptables.IPTables_Append env ipt table chain_ rule).
Proof.
  intros Hc. apply (emits_one (IptablesAppend table chain_ rule)); [done|]. intros w.
  unfold iptables.IPTables_Append. by repeat branch.
Qed.

End Emits.

Lemma DelegateAdd_emits (env : Env) (delegateConfig networkName stdin : string) :
  emits notPrint (delegate.DelegateAdd env delegateConfig networkName stdin).
Proof.
  unfold delegate.DelegateAdd.
  repeat first [ apply emits_ret | apply emits_bind; [|intros ?] | branch ].
  match goal with
  | |- emits _ (delegate.invoke_DelegateAdd _ ?t ?c) =>
      apply (emits_one _ (InvokeDelegate "ADD" t c)); [by intros []|]
  end.
  intros w. unfold delegate.invoke_DelegateAdd. by repeat branch.
Qed.

Lemma NewClient_emits (env : Env) (path : string) :
  emits notPrint (k8s.NewClient env path).
Proof.
  unfold k8s.NewClient.
  repeat first [ apply emits_ret | apply emits_bind; [|intros ?]
               | apply emits_extcall | branch ];
    by intros [].
Qed.

Lemma GetFwmark_emits (env : Env) (c : Clientset) (podName podNamespace key : string) :
  emits notPrint (k8s.GetFwmark env c podName podNamespace key).
Proof.
  unfold k8s.GetFwmark.
  repeat first [ apply emits_ret | apply emits_bind; [|intros ?]
               | apply emits_Pods_Get | apply emits_Namespaces_Get | branch ];
    by intros [].
Qed.

Lemma AddMarkRule_emits (env : Env) (podIP fwmark : string) :
  emits notPrint (iptables.AddMarkRule env podIP fwmark).
Proof.
  unfold iptables.AddMarkRule, iptables.NewManager, iptables.IPTables_New.
  repeat first [ apply emits_ret | apply emits_bind; [|intros ?]
               | apply emits_extcall | apply emits_IPTables_Exists
               | apply emits_IPTables_Append | branch ];
    by intros [].
Qed.

Lemma endsPrinting_PrintResult (env : Env) (res : Result) (version : string) :
  endsPrinting env res version
    (do err <- types_PrintResult env res version ;; ret (Returns err)).
Proof. intros w. exists []. cbn. by rewrite app_nil_r. Qed.

Lemma endsPrinting_bind {A : Type} (env : Env) (res : Result) (version : string)
    (m : M A) (k : A → M (completion goerr)) :
  emits notPrint m → (∀ a, endsPrinting env res version (k a)) →
  endsPrinting env res version (bind m k).
Proof.
  intros Hm Hk w. unfold bind. destruct (Hm w) as (evs1 & Htr1 & HP1).
  destruct (m w) as [a w1]. destruct (Hk a w1) as (evs2 & Htr2 & HP2 & Hret).
  exists (evs1 ++ evs2)%list. cbn in *. rewrite Htr2, Hret, Htr1, !app_assoc.
  split; [done|]. split; [by apply Forall_app | done].
Qed.

(** ** The order of a [range] *)

Lemma rangeOrder_Permutation (pick : list string → nat) (keys : list string) :
  rangeOrder pick (length keys) keys ≡ₚ keys.
Proof.
  remember (length keys) as n eqn:Hn. revert keys Hn.
  induction n as [|n IH]; intros keys Hn.
  - by destruct keys.
  - destruct keys as [|k0 keys]; [done|]. cbn [rangeOrder].
    set (i := (pick (k0 :: keys) mod length (k0 :: keys))%nat).
    assert (Hi : (i < length (k0 :: keys))%nat)
      by (apply Nat.mod_upper_bound; cbn; lia).
    destruct (lookup_lt_is_Some_2 (k0 :: keys) i Hi) as [k Hk].
    rewrite (nth_lookup_Some _ _ k0 k Hk).
    rewrite IH.
    + symmetry. by apply delete_Permutation.
    + rewrite length_delete by eauto. cbn in *. lia.
Qed.

Lemma allowListed_ranged (env : Env) (tag : string) :
  allowListed tag → tag ∈ main.rangeValidFwmarkValues env.
Proof.
  intros Htag. unfold main.rangeValidFwmarkValues.
  rewrite rangeOrder_Permutation.
  apply list_elem_of_fmap. exists (tag, true). split; [done|].
  apply elem_of_map_to_list. unfold k8s.ValidFwmarkValues.
  destruct Htag as [-> | ->]; by simplify_map_eq.
Qed.

(** ** Extraction yields text *)

Lemma Join_cons_nonempty (c : ascii) (s : string) (rest : list string) (sep : string) :
  Strings.Join (String c s :: rest) sep ≠ "".
Proof. destruct rest; cbn; [done|]. unfold String.append; fold String.append. done. Qed.

Lemma ubtoa_nonempty (b : byte) : ∃ c s, ubtoa b = String c s.
Proof.
  unfold ubtoa, digit. repeat case_match; unfold String.append; fold String.append; eauto.
Qed.

Lemma To4_length (ip : IP) (p4 : list byte) : To4 ip = Some p4 → length p4 = 4%nat.
Proof.
  destruct ip as [p|]; [|done]. unfold To4.
  destruct (length p =? 4)%nat eqn:E4.
  - intros [= <-]. by apply Nat.eqb_eq.
  - destruct (length p =? 16)%nat eqn:E16; [|done]. apply Nat.eqb_eq in E16.
    cbn [andb]. repeat case_match; try done. intros [= <-].
    rewrite length_drop. lia.
Qed.

Lemma IP_String_v4_nonempty (ip : IP) (p4 : list byte) :
  To4 ip = Some p4 → IP_String ip ≠ "".
Proof.
  intros H4. pose proof (To4_length _ _ H4) as Hlen.
  unfold IP_String. destruct ip as [[|b p]|]; [done| |done]. rewrite H4.
  destruct p4 as [|b4 p4]; [done|]. cbn [map].
  destruct (ubtoa_nonempty b4) as (c & s & ->). apply Join_cons_nonempty.
Qed.

Lemma firstIPv4_ok (ips : list (option IP)) (podIP : string) :
  result.firstIPv4 ips = Returns (podIP, None) → podIP ≠ "".
Proof.
  induction ips as [|entry ips IH]; [done|]. cbn [result.firstIPv4].
  destruct entry as [ip|]; [|done]. destruct ip as [p|]; [|done].
  destruct (To4 (Some p)) as [p4|] eqn:H4; [|done].
  intros Heq. assert (podIP = IP_String (Some p)) as -> by congruence.
  by eapply IP_String_v4_nonempty.
Qed.

Lemma ExtractPodIP_ok (res : Result) (podIP : string) :
  result.ExtractPodIP res = Returns (podIP, None) → podIP ≠ "" ∧ res ≠ None.
Proof.
  destruct res as [[r|r|T]|]; cbn; try done;
    unfold result.extractIPv4FromResult100, result.extractIPv4FromResult040;
    case_match; try done; intros Hfirst%firstIPv4_ok; done.
Qed.


(** ** The mark-rule manager *)

Lemma ipt_validateFwmark_ok (env : Env) (fwmark : string) :
  iptables.validateFwmark env fwmark = None
  ↔ allowListed (Strings.ToLower (Strings.TrimSpace fwmark)).
Proof.
  unfold iptables.validateFwmark, allowListed, iptables.FwmarkTenantA,
    iptables.FwmarkTenantB.
  destruct (decide (Strings.ToLower (Strings.TrimSpace fwmark) = "0x10")) as [E1|N1];
    destruct (decide (Strings.ToLower (Strings.TrimSpace fwmark) = "0x20")) as [E2|N2];
    case_decide as H; split; intros H'; try done; tauto.
Qed.

Lemma occurrences_app (rule : rulespec) (l1 l2 : list rulespec) :
  occurrences rule (l1 ++ l2) = (occurrences rule l1 + occurrences rule l2)%nat.
Proof. induction l1 as [|r l1 IH]; cbn; [done|]. rewrite IH. lia. Qed.

Lemma occurrences_absent (rule : rulespec) (rules : list rulespec) :
  rule ∉ rules ↔ occurrences rule rules = 0%nat.
Proof.
  induction rules as [|r rules IH]; cbn.
  - split; [done|]. intros _ Hin. by apply elem_of_nil in Hin.
  - rewrite not_elem_of_cons. case_decide as Hr.
    + split; [intros [Hne _]; congruence | lia].
    + rewrite IH. split; [by intros [_ ->] | intros H0].
      split; [congruence | lia].
Qed.

Lemma occurrences_removeFirst (rule : rulespec) (rules : list rulespec) :
  rule ∈ rules →
  occurrences rule rules = S (occurrences rule (iptables.removeFirst rule rules)).
Proof.
  induction rules as [|r rules IH]; [by intros H%elem_of_nil|].
  intros Hin. cbn. case_decide; subst; [done|].
  apply elem_of_cons in Hin as [-> | Hin]; [done|].
  cbn. rewrite decide_False by done. by rewrite IH.
Qed.

Section Reliable.

Context (env : Env) (podIP fwmark : string).
Context (Hvalid : validPair env podIP fwmark) (Htool : toolReliable env).

Let rule : rulespec := iptables.markRule podIP fwmark.

Lemma AddMarkRule_reliable (w : World) :
  (iptables.AddMarkRule env podIP fwmark w).1 = None
  ∧ chain (iptables.AddMarkRule env podIP fwmark w).2
    = if bool_decide (rule ∈ chain w) then chain w else (chain w ++ [rule])%list.
Proof.
  destruct Hvalid as (Hne & Hip & Hfw).
  unfold iptables.AddMarkRule, iptables.NewManager, iptables.IPTables_New,
    iptables.IPTables_Exists, iptables.IPTables_Append, extcall.
  rewrite decide_False by done.
  destruct (net_ParseIP env podIP) as [p|]; [|done]. rewrite Hfw. run.
  rewrite !Htool by exact I. cbn. fold rule.
  destruct (bool_decide (rule ∈ chain w)); [done|].
  rewrite !Htool by exact I. done.
Qed.

Lemma DeleteMarkRule_reliable (w : World) :
  (iptables.DeleteMarkRule env podIP fwmark w).1 = None
  ∧ chain (iptables.DeleteMarkRule env podIP fwmark w).2
    = if bool_decide (rule ∈ chain w) then iptables.removeFirst rule (chain w)
      else chain w.
Proof.
  destruct Hvalid as (Hne & Hip & Hfw).
  unfold iptables.DeleteMarkRule, iptables.NewManager, iptables.IPTables_New,
    iptables.IPTables_Exists, iptables.IPTables_Delete, extcall.
  rewrite decide_False by done.
  destruct (net_ParseIP env podIP) as [p|]; [|done]. rewrite Hfw. run.
  rewrite !Htool by exact I. cbn. fold rule.
  destruct (bool_decide (rule ∈ chain w)) eqn:Hin; [|done]. cbn.
  rewrite !Htool by exact I. cbn. by rewrite Hin.
Qed.

Lemma AddMarkRule_occurrences (w : World) :
  occurrences rule (chain (iptables.AddMarkRule env podIP fwmark w).2)
  = Nat.max 1 (occurrences rule (chain w)).
Proof.
  destruct (AddMarkRule_reliable w) as [_ ->]. case_bool_decide as Hin.
  - rewrite (occurrences_removeFirst _ _ Hin). lia.
  - rewrite occurrences_app. apply occurrences_absent in Hin. rewrite Hin. cbn.
    rewrite decide_True by done. lia.
Qed.

Lemma DeleteMarkRule_occurrences (w : World) :
  occurrences rule (chain (iptables.DeleteMarkRule env podIP fwmark w).2)
  = Nat.pred (occurrences rule (chain w)).
Proof.
  destruct (DeleteMarkRule_reliable w) as [_ ->]. case_bool_decide as Hin.
  - by rewrite (occurrences_removeFirst _ _ Hin).
  - apply occurrences_absent in Hin. by rewrite Hin.
Qed.

End Reliable.


(** ** The annotation resolver *)

Lemma k8s_validateFwmark_ok (fwmark : string) :
  k8s.validateFwmark fwmark = None ↔ allowListed fwmark.
Proof.
  unfold k8s.validateFwmark, k8s.ValidFwmarkValues, allowListed.
  destruct (decide (fwmark = "0x10")) as [-> | H10]; [by split; [left|]|].
  destruct (decide (fwmark = "0x20")) as [-> | H20]; [by split; [right|]|].
  rewrite !lookup_insert_ne, lookup_empty by done. cbn. split; [done|]. tauto.
Qed.

Lemma k8s_validateFwmark_err (fwmark : string) :
  ¬ allowListed fwmark → ∃ err, k8s.validateFwmark fwmark = Some err.
Proof.
  intros Hno. destruct (k8s.validateFwmark fwmark) as [e|] eqn:E; [by eexists|].
  by apply k8s_validateFwmark_ok in E.
Qed.


(** ** Result extractor *)

Lemma firstIPv4_skip (skipped : list IP) (rest : list (option IP)) :
  Forall (λ ip, result.IsIPv4 ip = false) skipped →
  result.firstIPv4 (map Some skipped ++ rest)%list = result.firstIPv4 rest.
Proof.
  induction 1 as [|ip skipped Hip _ IH]; [done|].
  cbn [map app result.firstIPv4]. destruct ip as [p|]; [|done].
  unfold result.IsIPv4 in Hip.
  destruct (To4 (Some p)) eqn:E; [|done].
  rewrite bool_decide_eq_false in Hip. destruct Hip. by eexists.
Qed.

Lemma firstIPv4_hit (ip : IP) (rest : list (option IP)) :
  result.IsIPv4 ip = true →
  result.firstIPv4 (Some ip :: rest) = Returns (IP_String ip, None).
Proof.
  intros Hip. cbn [result.firstIPv4]. destruct ip as [p|]; [|done].
  unfold result.IsIPv4 in Hip. rewrite bool_decide_eq_true in Hip.
  by destruct Hip as [p4 ->].
Qed.

Lemma ExtractPodIP_addresses (rv : ResultValue) (ips : list (option IP)) :
  addresses rv = Some ips →
  result.ExtractPodIP (Some rv)
  = if (length ips =? 0)%nat
    then Returns ("", Some (errorString "CNI result contains no IP addresses"))
    else result.firstIPv4 ips.
Proof.
  destruct rv as [r|r|T]; cbn [addresses]; intros [= <-]; cbn [result.ExtractPodIP].
  - unfold result.extractIPv4FromResult100. by rewrite length_map.
  - unfold result.extractIPv4FromResult040. by rewrite length_map.
Qed.


Lemma firstIPv4_nil (skipped : list IP) (rest : list (option IP)) :
  Forall (λ ip, result.IsIPv4 ip = false) skipped →
  result.firstIPv4 (map Some skipped ++ None :: rest)%list = Panics.
Proof. intros Hskip. by rewrite firstIPv4_skip. Qed.

(** ** The configuration never carries an earlier result *)

Lemma ParseConfig_PrevResult (env : Env) (stdin : string) (conf : PluginConf) :
  config.ParseConfig env stdin = Ok conf → PrevResult conf = None.
Proof.
  unfold config.ParseConfig.
  destruct (json_Unmarshal_conf env stdin) as [raw|e] eqn:Hraw; [|done].
  apply json_Unmarshal_conf_PrevResult in Hraw.
  repeat (case_match; try done); by intros [= <-].
Qed.

(** * The claims *)

(** ** C1: Create rejects a malformed call before delegating *)

(** C1.  When the configuration does not parse, or the argument string has no
    non-empty K8S_POD_NAME or no non-empty K8S_POD_NAMESPACE, [cmdAdd]
    returns an error and leaves the world as it found it: no call has been
    made, so the chained plugin was not run. *)
Theorem cmdAdd_rejects_before_delegating (env : Env) (args : CmdArgs) (w : World) :
  (∃ err, config.ParseConfig env (StdinData args) = Err err)
  ∨ lacksKey "K8S_POD_NAME" (Args args)
  ∨ lacksKey "K8S_POD_NAMESPACE" (Args args) →
  ∃ err, main.cmdAdd env args w = (Returns (Some err), w).
Proof.
  intros Hbad. unfold main.cmdAdd.
  destruct (config.ParseConfig env (StdinData args)) as [conf|e] eqn:Hconf.
  - destruct Hbad as [[? [=]] | Hlack].
    destruct (parseCNIArgs_lacking _ Hlack) as [e ->]. by eexists.
  - by eexists.
Qed.

Lemma cmdAdd_rejects_before_delegating_witness :
  (∃ err, main.cmdAdd Demo.env (Demo.cmdArgs "K8S_POD_NAMESPACE=default" Demo.stdin)
                      Demo.world0
          = (Returns (Some err), Demo.world0))
  ∧ (∃ err, main.cmdAdd Demo.env
                        (Demo.cmdArgs "K8S_POD_NAME=web;K8S_POD_NAMESPACE=production"
                                      Demo.stdinNoDelegate)
                        Demo.world0
            = (Returns (Some err), Demo.world0)).
Proof.
  split.
  - apply cmdAdd_rejects_before_delegating. right; left.
    intros v Hv. cbn in Hv. apply list_elem_of_singleton in Hv.
    vm_compute in Hv. discriminate Hv.
  - apply cmdAdd_rejects_before_delegating. left. eexists. vm_compute. reflexivity.
Defined.

(** ** C2: Create prints the delegate's result *)

(** C2.  When configuration, arguments, delegation and address extraction
    succeed, [cmdAdd] prints nothing until its last act, which prints the
    delegate's result itself, and [cmdAdd] returns what that print returns.
    This holds in every environment: however client creation, tag resolution
    and rule installation go. *)
Theorem cmdAdd_emits_delegate_result (env : Env) (args : CmdArgs) (w : World)
    (conf : PluginConf) (podName podNamespace : string)
    (delegateResult : Result) (w1 : World) (podIP : string) :
  config.ParseConfig env (StdinData args) = Ok conf →
  main.parseCNIArgs (Args args) = (podName, podNamespace, None) →
  delegate.DelegateAdd env (Delegate conf) (Name conf) (StdinData args) w
  = ((delegateResult, None), w1) →
  result.ExtractPodIP delegateResult = Returns (podIP, None) →
  let output := PrintResult delegateResult (CNIVersion conf) in
  ∃ evs,
    trace (main.cmdAdd env args w).2 = (trace w ++ evs ++ [output])%list
    ∧ Forall notPrint evs
    ∧ (main.cmdAdd env args w).1 = Returns (fault env (trace w ++ evs) output).
Proof.
  intros Hconf Hargs Hdel Hip output. subst output.
  enough (∃ m, main.cmdAdd env args w = m w1
               ∧ endsPrinting env delegateResult (CNIVersion conf) m)
    as (m & -> & Hm).
  { destruct (DelegateAdd_emits env (Delegate conf) (Name conf) (StdinData args) w)
      as (evs0 & Htr0 & Hquiet0).
    rewrite Hdel in Htr0. cbn in Htr0.
    destruct (Hm w1) as (evs & Htr & Hquiet & Hret).
    exists (evs0 ++ evs)%list. rewrite Htr, Hret, Htr0, <- !app_assoc.
    split; [done|]. split; [by apply Forall_app | done]. }
  eexists. split.
  { unfold main.cmdAdd. rewrite Hconf, Hargs. unfold bind at 1. rewrite Hdel, Hip.
    reflexivity. }
  apply endsPrinting_bind; [apply NewClient_emits|].
  intros [c|cerr].
  - apply endsPrinting_bind; [apply GetFwmark_emits|].
    intros [fwmark [ferr|]].
    + apply endsPrinting_bind; [|intros _; apply endsPrinting_PrintResult].
      apply emits_log; by intros [].
    + apply endsPrinting_bind; [|intros _; apply endsPrinting_PrintResult].
      case_decide; [|apply emits_ret].
      apply emits_bind; [apply AddMarkRule_emits|].
      intros [e|]; apply emits_log; by intros [].
  - apply endsPrinting_bind; [|intros _; apply endsPrinting_PrintResult].
    apply emits_log; by intros [].
Qed.

Lemma cmdAdd_emits_delegate_result_witness :
  ∃ evs,
    trace (main.cmdAdd
             (Demo.failing (fun c => match c with IptablesNew => true | _ => false end))
             (Demo.cmdArgs "K8S_POD_NAME=web;K8S_POD_NAMESPACE=production" Demo.stdin)
             Demo.world0).2
    = (trace Demo.world0 ++ evs ++ [PrintResult Demo.podResult "1.0.0"])%list
    ∧ Forall notPrint evs
    ∧ (main.cmdAdd
         (Demo.failing (fun c => match c with IptablesNew => true | _ => false end))
         (Demo.cmdArgs "K8S_POD_NAME=web;K8S_POD_NAMESPACE=production" Demo.stdin)
         Demo.world0).1
      = Returns None.
Proof.
  refine (cmdAdd_emits_delegate_result
            (Demo.failing (fun c => match c with IptablesNew => true | _ => false end))
            (Demo.cmdArgs "K8S_POD_NAME=web;K8S_POD_NAMESPACE=production" Demo.stdin)
            Demo.world0 Demo.parsed "web" "production" Demo.podResult
            _ "10.200.1.5" _ _ _ _); vm_compute; reflexivity.
Defined.

(** ** C3: Verify without a pod identity *)

(** C3, as the code has it.  With a well-formed configuration and an
    argument string that lacks the pod name or the namespace, [cmdCheck]
    runs the delegate's check first; it returns an error exactly when that
    check fails, and otherwise logs a warning and returns success. *)
Theorem cmdCheck_without_identity (env : Env) (args : CmdArgs) (w : World)
    (conf : PluginConf) :
  config.ParseConfig env (StdinData args) = Ok conf →
  lacksKey "K8S_POD_NAME" (Args args) ∨ lacksKey "K8S_POD_NAMESPACE" (Args args) →
  ∃ perr,
    main.parseCNIArgs (Args args) = ("", "", Some perr)
    ∧ main.cmdCheck env args w
      = match delegate.DelegateCheck env (Delegate conf) (Name conf) (StdinData args) w with
        | (Some derr, w1) => (Returns (Some (Errorf_w "delegate CHECK failed: " derr)), w1)
        | (None, w1) =>
            (Returns None,
             record (LogPrintf ("WARNING: CHECK cannot verify iptables - failed to parse CNI_ARGS: "
                                +:+ Error perr)) w1)
        end.
Proof.
  intros Hconf Hlack. destruct (parseCNIArgs_lacking _ Hlack) as [perr Hargs].
  exists perr. split; [done|].
  unfold main.cmdCheck. rewrite Hconf, Hargs. run.
  by destruct (delegate.DelegateCheck _ _ _ _ _) as [[derr|] w1].
Qed.

Lemma cmdCheck_without_identity_witness :
  ∃ perr,
    main.parseCNIArgs "" = ("", "", Some perr)
    ∧ main.cmdCheck Demo.env (Demo.cmdArgs "" Demo.stdin) Demo.world0
      = match delegate.DelegateCheck Demo.env Demo.delegateJSON "test-network"
                                     Demo.stdin Demo.world0 with
        | (Some derr, w1) => (Returns (Some (Errorf_w "delegate CHECK failed: " derr)), w1)
        | (None, w1) =>
            (Returns None,
             record (LogPrintf ("WARNING: CHECK cannot verify iptables - failed to parse CNI_ARGS: "
                                +:+ Error perr)) w1)
        end.
Proof.
  refine (cmdCheck_without_identity Demo.env (Demo.cmdArgs "" Demo.stdin) Demo.world0
            Demo.parsed _ _).
  - vm_compute. reflexivity.
  - left. intros v Hv. cbn in Hv. apply list_elem_of_singleton in Hv.
    vm_compute in Hv. discriminate Hv.
Defined.

(** C3, as stated, fails: with the configuration of the handler tests and an
    empty argument string, [cmdCheck] returns no error, and the trace shows
    that the chained plugin was run. *)
Lemma cmdCheck_without_identity_succeeds :
  config.ParseConfig Demo.env Demo.stdin = Ok Demo.parsed
  ∧ lacksKey "K8S_POD_NAME" ""
  ∧ lacksKey "K8S_POD_NAMESPACE" ""
  ∧ (main.cmdCheck Demo.env (Demo.cmdArgs "" Demo.stdin) Demo.world0).1 = Returns None
  ∧ Exists isDelegateCall
           (trace (main.cmdCheck Demo.env (Demo.cmdArgs "" Demo.stdin) Demo.world0).2).
Proof.
  split; [vm_compute; reflexivity|].
  split; [|split].
  - intros v Hv. cbn in Hv. apply list_elem_of_singleton in Hv. discriminate Hv.
  - intros v Hv. cbn in Hv. apply list_elem_of_singleton in Hv. discriminate Hv.
  - split; [vm_compute; reflexivity|]. vm_compute. apply Exists_cons_hd. exact I.
Qed.

(** ** C4: when Verify fails *)

(** The configuration [cmdCheck] works on never holds an earlier result, so
    [cmdCheck] stops before the rule is looked at: it returns an error
    exactly when the configuration does not parse or the delegate's check
    fails, and it never panics. *)
Lemma cmdCheck_error_iff (env : Env) (args : CmdArgs) (w : World) :
  (main.cmdCheck env args w).1 ≠ Panics
  ∧ ∀ err,
      (main.cmdCheck env args w).1 = Returns (Some err)
      ↔ (∃ e, config.ParseConfig env (StdinData args) = Err e
              ∧ err = Errorf_w "failed to parse config: " e)
        ∨ (∃ conf e,
             config.ParseConfig env (StdinData args) = Ok conf
             ∧ (delegate.DelegateCheck env (Delegate conf) (Name conf)
                                       (StdinData args) w).1 = Some e
             ∧ err = Errorf_w "delegate CHECK failed: " e).
Proof.
  unfold main.cmdCheck.
  destruct (config.ParseConfig env (StdinData args)) as [conf|e] eqn:Hconf.
  2:{ split; [done|]. intros err. split.
      - intros [= <-]. left. by eexists.
      - intros [(e' & [= <-] & ->) | (conf & e' & [=] & _)]. done. }
  rewrite (ParseConfig_PrevResult _ _ _ Hconf). run.
  destruct (delegate.DelegateCheck env _ _ _ w) as [[derr|] w1] eqn:Hdel; cbn.
  { split; [done|]. intros err. split.
    - intros [= <-]. right. exists conf, derr. by rewrite Hdel.
    - intros [(e' & [=] & _) | (conf' & e' & [= <-] & He & ->)].
      rewrite Hdel in He. by injection He as <-. }
  destruct (main.parseCNIArgs (Args args)) as [[podName podNamespace] [perr|]]; cbn.
  all: split; [done|]; intros err; split; [done|].
  all: intros [(e' & [=] & _) | (conf' & e' & [= <-] & He & _)].
  all: by rewrite Hdel in He.
Qed.

(** C4 fails on the code.  The pod [production/web] carries the tag 0x10, the
    configuration on standard input holds the result of the earlier ADD
    with the address 10.200.1.5, and the rule table is empty: the tag
    resolves, the existence query answers, the rule is absent.  [cmdCheck]
    returns nil all the same.  [ParseConfig] leaves [PrevResult] nil, so
    after the delegate's check the handler logs that no earlier result is
    available and stops, without a question to the metadata store or to the
    rule tool. *)
Theorem cmdCheck_misses_drift :
  (k8s.GetFwmark Demo.env clientset "web" "production" "tenant.routing/fwmark"
                 Demo.world0).1 = ("0x10", None)
  ∧ (iptables.RuleExists Demo.env "10.200.1.5" "0x10" Demo.world0).1 = (false, None)
  ∧ ∃ netconf,
      main.cmdCheck Demo.env
        (Demo.cmdArgs "K8S_POD_NAME=web;K8S_POD_NAMESPACE=production" Demo.stdinPrev)
        Demo.world0
      = (Returns None,
         {| chain := [];
            trace := [InvokeDelegate "CHECK" "ptp" netconf;
                      LogPrintf "WARNING: CHECK cannot verify iptables - no prevResult available"] |}).
Proof.
  split; [vm_compute; reflexivity|]. split; [vm_compute; reflexivity|].
  eexists. vm_compute. reflexivity.
Qed.

(** ** C5: Destroy never fails *)

(** C5.  [cmdDel] returns nil for every configuration blob, argument string,
    environment and host state. *)
Theorem cmdDel_never_fails (env : Env) (args : CmdArgs) (w : World) :
  (main.cmdDel env args w).1 = Returns None.
Proof.
  unfold main.cmdDel.
  destruct (config.ParseConfig env (StdinData args)) as [conf|e] eqn:Hconf; [|done].
  rewrite (ParseConfig_PrevResult _ _ _ Hconf). run.
  repeat (branch; run; try reflexivity).
Qed.

(** ** C6: the sweep over every tag *)

(** C6 fails on the code.  The configuration on standard input holds the
    result of the earlier ADD with the address 10.200.1.5, and the rule table
    has the rule of that address under both allow-listed tags.  Neither with
    an argument string that names no pod, nor with one that names a pod the
    metadata store no longer has, does [cmdDel] sweep: [ParseConfig] leaves
    [PrevResult] nil, the handler has no address, and after the chained
    plugin's DEL it returns without a call to the metadata store or to the
    rule tool.  Both rules are still in the table. *)
Theorem cmdDel_skips_sweep :
  let rules := [iptables.markRule "10.200.1.5" "0x10";
                iptables.markRule "10.200.1.5" "0x20"] in
  ∃ netconf,
    main.cmdDel Demo.env (Demo.cmdArgs "" Demo.stdinPrev)
                {| chain := rules; trace := [] |}
    = (Returns None,
       {| chain := rules;
          trace := [LogPrintf "WARNING: failed to parse CNI_ARGS in DEL: CNI_ARGS is empty";
                    InvokeDelegate "DEL" "ptp" netconf] |})
    ∧ pods Demo.env !! ("production", "gone") = None
    ∧ main.cmdDel Demo.env
        (Demo.cmdArgs "K8S_POD_NAME=gone;K8S_POD_NAMESPACE=production" Demo.stdinPrev)
        {| chain := rules; trace := [] |}
      = (Returns None,
         {| chain := rules; trace := [InvokeDelegate "DEL" "ptp" netconf] |}).
Proof.
  intros rules. eexists. split; [vm_compute; reflexivity|].
  split; vm_compute; reflexivity.
Qed.

(** ** C7: Add and Delete are idempotent *)

(** C7.  For an address and a tag that pass validation, over a rule tool
    that answers: [AddMarkRule] succeeds, leaving the chain alone when the
    rule is present and appending exactly that rule otherwise;
    [DeleteMarkRule] succeeds, leaving the chain alone when the rule is
    absent and removing it otherwise.  Hence, on a chain that holds the rule
    at most once, two adds leave it exactly once, two deletes leave it zero
    times, and after add-then-delete a further delete changes nothing. *)
Theorem mark_rule_idempotent (env : Env) (podIP fwmark : string) (w : World) :
  validPair env podIP fwmark → toolReliable env →
  let rule := iptables.markRule podIP fwmark in
  let add := iptables.AddMarkRule env podIP fwmark in
  let del := iptables.DeleteMarkRule env podIP fwmark in
  (rule ∈ chain w → (add w).1 = None ∧ chain (add w).2 = chain w)
  ∧ (rule ∉ chain w → (add w).1 = None ∧ chain (add w).2 = (chain w ++ [rule])%list)
  ∧ (rule ∉ chain w → (del w).1 = None ∧ chain (del w).2 = chain w)
  ∧ (rule ∈ chain w →
     (del w).1 = None ∧ chain (del w).2 = iptables.removeFirst rule (chain w))
  ∧ ((occurrences rule (chain w) ≤ 1)%nat →
     (add (add w).2).1 = None
     ∧ occurrences rule (chain (add (add w).2).2) = 1%nat
     ∧ (del (del w).2).1 = None
     ∧ occurrences rule (chain (del (del w).2).2) = 0%nat
     ∧ (del (del (add w).2).2).1 = None
     ∧ chain (del (del (add w).2).2).2 = chain (del (add w).2).2
     ∧ occurrences rule (chain (del (del (add w).2).2).2) = 0%nat).
Proof.
  intros Hvalid Htool rule add del.
  pose proof (AddMarkRule_reliable env podIP fwmark Hvalid Htool) as Hadd.
  pose proof (DeleteMarkRule_reliable env podIP fwmark Hvalid Htool) as Hdel.
  pose proof (AddMarkRule_occurrences env podIP fwmark Hvalid Htool) as Haddn.
  pose proof (DeleteMarkRule_occurrences env podIP fwmark Hvalid Htool) as Hdeln.
  fold rule add del in Hadd, Hdel, Haddn, Hdeln.
  repeat split; try apply Hadd; try apply Hdel.
  - destruct (Hadd w) as [_ ->]. by rewrite bool_decide_eq_true_2.
  - destruct (Hadd w) as [_ ->]. by rewrite bool_decide_eq_false_2.
  - destruct (Hdel w) as [_ ->]. by rewrite bool_decide_eq_false_2.
  - destruct (Hdel w) as [_ ->]. by rewrite bool_decide_eq_true_2.
  - rewrite !Haddn. lia.
  - rewrite !Hdeln. lia.
  - destruct (Hdel (del (add w).2).2) as [_ ->].
    rewrite bool_decide_eq_false_2; [done|].
    apply occurrences_absent. rewrite Hdeln, Haddn. lia.
  - rewrite !Hdeln, Haddn. lia.
Qed.

Lemma mark_rule_idempotent_witness :
  let rule := iptables.markRule "10.200.1.5" "0x10" in
  let add := iptables.AddMarkRule Demo.env "10.200.1.5" "0x10" in
  let del := iptables.DeleteMarkRule Demo.env "10.200.1.5" "0x10" in
  occurrences rule (chain (add (add Demo.world0).2).2) = 1%nat
  ∧ occurrences rule (chain (del (del (add Demo.world0).2).2).2) = 0%nat.
Proof.
  intros rule add del.
  assert (Hvalid : validPair Demo.env "10.200.1.5" "0x10").
  { repeat split; vm_compute; congruence. }
  assert (Htool : toolReliable Demo.env) by (intros h c _; reflexivity).
  assert (Hfresh : (occurrences rule (chain Demo.world0) ≤ 1)%nat) by (vm_compute; lia).
  pose proof (mark_rule_idempotent Demo.env "10.200.1.5" "0x10" Demo.world0 Hvalid Htool)
    as (_ & _ & _ & _ & Htwice).
  destruct (Htwice Hfresh) as (_ & Hadd & _ & _ & _ & _ & Hdel).
  split; [exact Hadd | exact Hdel].
Defined.

(** ** C8: invalid input never reaches the rule tool *)

(** C8, as the code has it.  When the address is blank or does not parse as
    an IP address, or the tag, trimmed and lower-cased, is not on the
    allow-list, [AddMarkRule], [DeleteMarkRule] and [RuleExists] return an
    error and leave the world as it was: the rule tool was not called. *)
Theorem manager_rejects_invalid_input (env : Env) (podIP fwmark : string) (w : World) :
  Strings.TrimSpace podIP = "" ∨ net_ParseIP env podIP = None
  ∨ ¬ allowListed (Strings.ToLower (Strings.TrimSpace fwmark)) →
  (∃ err, iptables.AddMarkRule env podIP fwmark w = (Some err, w))
  ∧ (∃ err, iptables.DeleteMarkRule env podIP fwmark w = (Some err, w))
  ∧ (∃ err, iptables.RuleExists env podIP fwmark w = ((false, Some err), w)).
Proof.
  intros Hbad.
  unfold iptables.AddMarkRule, iptables.DeleteMarkRule, iptables.RuleExists.
  case_decide as Hempty; [by repeat split; eexists|].
  destruct (net_ParseIP env podIP) as [p|]; [|by repeat split; eexists].
  destruct (iptables.validateFwmark env fwmark) as [e|] eqn:Hfw; [by repeat split; eexists|].
  apply ipt_validateFwmark_ok in Hfw. destruct Hbad as [? | [? | ?]]; done.
Qed.

Lemma manager_rejects_invalid_input_witness :
  (∃ err, iptables.AddMarkRule Demo.env "10.0.0.1; rm -rf /" "0x10" Demo.world0
          = (Some err, Demo.world0))
  ∧ (∃ err, iptables.DeleteMarkRule Demo.env "" "0x10" Demo.world0
            = (Some err, Demo.world0))
  ∧ (∃ err, iptables.RuleExists Demo.env "10.200.1.5" "0x99" Demo.world0
            = ((false, Some err), Demo.world0)).
Proof.
  split; [|split].
  - apply (manager_rejects_invalid_input Demo.env "10.0.0.1; rm -rf /" "0x10").
    right; left. vm_compute. reflexivity.
  - apply (manager_rejects_invalid_input Demo.env "" "0x10").
    left. vm_compute. reflexivity.
  - apply (manager_rejects_invalid_input Demo.env "10.200.1.5" "0x99").
    right; right. vm_compute. intros [Heq | Heq]; discriminate Heq.
Defined.

(** C8, as stated, fails: "0X10" is outside the allow-list, yet [AddMarkRule]
    accepts it, calls the rule tool and installs a rule spelled "0X10". *)
Lemma manager_accepts_unlisted_spelling :
  ¬ allowListed "0X10"
  ∧ iptables.AddMarkRule Demo.env "10.200.1.5" "0X10" Demo.world0
    = (None,
       {| chain := [iptables.markRule "10.200.1.5" "0X10"];
          trace := [IptablesNew;
                    IptablesExists "mangle" "PREROUTING"
                                   (iptables.markRule "10.200.1.5" "0X10");
                    IptablesAppend "mangle" "PREROUTING"
                                   (iptables.markRule "10.200.1.5" "0X10")] |}).
Proof. split; [by intros [? | ?]|]. vm_compute. reflexivity. Qed.

(** ** C9: tag resolution *)

(** C9.  When the pod query itself does not fail: a pod that carries the key
    yields its value if allow-listed and an error otherwise; a pod without
    the key defers to the namespace, under the same check; when neither
    carries the key the answer is the empty tag and no error; a pod or a
    namespace that the store does not have yields a NotFound error. *)
Theorem GetFwmark_resolution (env : Env) (c : Clientset)
    (podName podNamespace key : string) (w : World) :
  let podQuery := PodsGet podNamespace podName in
  let nsQuery := NamespacesGet podNamespace in
  let answer := (k8s.GetFwmark env c podName podNamespace key w).1 in
  fault env (trace w) podQuery = None →
  (∀ pod fwmark,
     pods env !! (podNamespace, podName) = Some pod →
     Pod_Annotations pod !! key = Some fwmark →
     (allowListed fwmark → answer = (fwmark, None))
     ∧ (¬ allowListed fwmark → ∃ err, answer = ("", Some err)))
  ∧ (∀ pod ns,
       pods env !! (podNamespace, podName) = Some pod →
       Pod_Annotations pod !! key = None →
       fault env (trace w ++ [podQuery]) nsQuery = None →
       namespaces env !! podNamespace = Some ns →
       (∀ fwmark,
          Namespace_Annotations ns !! key = Some fwmark →
          (allowListed fwmark → answer = (fwmark, None))
          ∧ (¬ allowListed fwmark → ∃ err, answer = ("", Some err)))
       ∧ (Namespace_Annotations ns !! key = None → answer = ("", None)))
  ∧ (pods env !! (podNamespace, podName) = None →
     ∃ err, answer = ("", Some err) ∧ IsNotFound err = true
            ∧ Error err = ("pod " +:+ podNamespace +:+ "/" +:+ podName +:+ " not found: ")
                          +:+ ("pods " +:+ fmt_q env podName +:+ " not found"))
  ∧ (∀ pod,
       pods env !! (podNamespace, podName) = Some pod →
       Pod_Annotations pod !! key = None →
       fault env (trace w ++ [podQuery]) nsQuery = None →
       namespaces env !! podNamespace = None →
       ∃ err, answer = ("", Some err) ∧ IsNotFound err = true
              ∧ Error err = ("namespace " +:+ podNamespace +:+ " not found: ")
                            +:+ ("namespaces " +:+ fmt_q env podNamespace +:+ " not found")).
Proof.
  intros podQuery nsQuery answer Hpodq. subst answer podQuery nsQuery.
  unfold k8s.GetFwmark, k8s.Pods_Get, k8s.Namespaces_Get. run. rewrite Hpodq.
  split; [|split; [|split]].
  - intros pod fwmark Hpod Hkey. rewrite Hpod, Hkey. cbn. split.
    + intros Hok. apply k8s_validateFwmark_ok in Hok. by rewrite Hok.
    + intros Hno. destruct (k8s_validateFwmark_err _ Hno) as [e ->]. by eexists.
  - intros pod ns Hpod Hkey Hnsq Hns. rewrite Hpod, Hkey. cbn. rewrite Hnsq, Hns. cbn.
    split.
    + intros fwmark Hnskey. rewrite Hnskey. split.
      * intros Hok. apply k8s_validateFwmark_ok in Hok. by rewrite Hok.
      * intros Hno. destruct (k8s_validateFwmark_err _ Hno) as [e ->]. by eexists.
    + by intros ->.
  - intros ->. cbn. rewrite bool_decide_eq_true_2 by done. eexists. repeat split; done.
  - intros pod Hpod Hkey Hnsq Hns. rewrite Hpod, Hkey. cbn. rewrite Hnsq, Hns. cbn.
    rewrite bool_decide_eq_true_2 by done. eexists. repeat split; done.
Qed.

Lemma GetFwmark_resolution_witness :
  (k8s.GetFwmark Demo.env clientset "web" "production" "tenant.routing/fwmark"
                 Demo.world0).1
  = ("0x10", None)
  ∧ (k8s.GetFwmark Demo.env clientset "plain" "production" "tenant.routing/fwmark"
                   Demo.world0).1
    = ("", None).
Proof.
  split.
  - refine (proj1 (proj1 (GetFwmark_resolution Demo.env clientset "web" "production"
                            "tenant.routing/fwmark" Demo.world0 _)
                         {| Pod_Annotations := Demo.annotated "0x10" |} "0x10" _ _) _).
    + reflexivity.
    + vm_compute. reflexivity.
    + vm_compute. reflexivity.
    + left. reflexivity.
  - refine (proj2 (proj1 (proj2 (GetFwmark_resolution Demo.env clientset "plain"
                                   "production" "tenant.routing/fwmark" Demo.world0 _))
                         {| Pod_Annotations := ∅ |} {| Namespace_Annotations := ∅ |}
                         _ _ _ _) _).
    + reflexivity.
    + vm_compute. reflexivity.
    + vm_compute. reflexivity.
    + reflexivity.
    + vm_compute. reflexivity.
    + vm_compute. reflexivity.
Defined.

(** ** C10: address extraction *)

(** C10 fails on the code.  The address list of a result is a list of
    pointers, and the loop of [extractIPv4FromResult100] and
    [extractIPv4FromResult040] reads [ipConfig.Address.IP] of each without
    asking whether the pointer is nil.  A list that is not empty and has no
    IPv4 entry does not yield the no-IPv4 error when it holds a nil entry,
    and a nil entry before the first IPv4 entry is not skipped: the call
    panics.  A plugin that prints [null] in its address list brings [cmdAdd]
    there: the handler panics after the plugin has run, before anything is
    printed. *)
Theorem ExtractPodIP_nil_entry_panics :
  result.ExtractPodIP
    (Some (R100 {| CNIVersion100 := "1.0.0"; IPs100 := [None] |})) = Panics
  ∧ result.ExtractPodIP
      (Some (R040 {| CNIVersion040 := "0.4.0";
                     IPs040 := [None;
                                Some {| Version040 := "4"; Interface040 := None;
                                        Address040 :=
                                          {| IPNet_IP := Demo.ip4 x0a xc8 x01 x05;
                                             IPNet_Mask := [xff; xff; xff; x00] |};
                                        Gateway040 := None |}] |})) = Panics
  ∧ ∃ netconf,
      main.cmdAdd (Demo.answering
                     (Some (R100 {| CNIVersion100 := "1.0.0"; IPs100 := [None] |})))
                  (Demo.cmdArgs "K8S_POD_NAME=web;K8S_POD_NAMESPACE=production" Demo.stdin)
                  Demo.world0
      = (Panics, {| chain := []; trace := [InvokeDelegate "ADD" "ptp" netconf] |}).
Proof.
  split; [reflexivity|]. split; [reflexivity|].
  eexists. vm_compute. reflexivity.
Qed.

(** * Further properties of the code *)

(** * Further properties *)

(** ** Argument strings *)

Lemma Split_free (s : string) (sep : ascii) :
  mentions sep s = false → Strings.Split s sep = [s].
Proof.
  induction s as [|c s IH]; cbn; [done|].
  destruct (Ascii.eqb c sep); [done|]. intros Hs. by rewrite IH.
Qed.

Lemma Split_cons (a b : string) (sep : ascii) :
  mentions sep a = false →
  Strings.Split (a +:+ String sep b) sep = a :: Strings.Split b sep.
Proof.
  induction a as [|c a IH]; intros Ha.
  - unfold String.append. cbn. by rewrite Ascii.eqb_refl.
  - cbn in Ha. unfold String.append; fold String.append. cbn.
    destruct (Ascii.eqb c sep); [done|]. by rewrite IH.
Qed.

Lemma mentions_app (c : ascii) (a b : string) :
  mentions c (a +:+ b) = mentions c a || mentions c b.
Proof.
  induction a as [|x a IH]; [done|]. unfold String.append; fold String.append. cbn.
  by destruct (Ascii.eqb x c).
Qed.

Lemma Split_Join (l : list string) (sep : ascii) :
  l ≠ [] → Forall (λ s, mentions sep s = false) l →
  Strings.Split (Strings.Join l (String sep "")) sep = l.
Proof.
  induction l as [|x l IH]; [done|]. intros _ Hall.
  apply Forall_cons in Hall as [Hx Hl]. destruct l as [|y l].
  - cbn. by apply Split_free.
  - cbn [Strings.Join].
    change (String sep "" +:+ ?r) with (String sep r).
    rewrite Split_cons by done. f_equal. by apply IH.
Qed.

Lemma Cut_first (a b : string) (sep : ascii) :
  mentions sep a = false → Strings.Cut (a +:+ String sep b) sep = Some (a, b).
Proof.
  induction a as [|c a IH]; intros Ha.
  - unfold String.append. cbn. by rewrite Ascii.eqb_refl.
  - cbn in Ha. unfold String.append; fold String.append. cbn.
    destruct (Ascii.eqb c sep); [done|]. by rewrite IH.
Qed.

Lemma Cut_free (s : string) (sep : ascii) :
  mentions sep s = false → Strings.Cut s sep = None.
Proof.
  induction s as [|c s IH]; cbn; [done|].
  destruct (Ascii.eqb c sep); [done|]. intros Hs. by rewrite IH.
Qed.

Lemma scanPair_piece (acc : string * string) (p : piece) :
  mentions "=" p.1 = false →
  main.scanPair acc (renderPiece p)
  = (lastValue "K8S_POD_NAME" acc.1 [p], lastValue "K8S_POD_NAMESPACE" acc.2 [p]).
Proof.
  destruct acc as [n ns], p as [k [v|]]; unfold main.scanPair, renderPiece,
    Strings.SplitN2, lastValue; cbn [fst snd fold_left]; intros Hk.
  - change ("=" +:+ v) with (String "=" v). rewrite Cut_first by done.
    repeat case_decide; subst; done.
  - by rewrite Cut_free.
Qed.

Lemma scan_pieces (pieces : list piece) (acc : string * string) :
  Forall wellFormedPiece pieces →
  fold_left main.scanPair (map renderPiece pieces) acc
  = (lastValue "K8S_POD_NAME" acc.1 pieces, lastValue "K8S_POD_NAMESPACE" acc.2 pieces).
Proof.
  intros Hall. revert acc. induction Hall as [|p pieces (_ & Hk & _) _ IH]; intros acc.
  - by destruct acc.
  - cbn [map fold_left]. rewrite scanPair_piece by done. by rewrite IH.
Qed.

Lemma renderPiece_free (p : piece) :
  wellFormedPiece p → mentions ";" (renderPiece p) = false.
Proof.
  destruct p as [k [v|]]; intros (Hk & _ & Hv); cbn in *; [|done].
  unfold renderPiece. cbn [fst snd]. rewrite !mentions_app, Hk, Hv. done.
Qed.

(** X1.  For an argument string made of [;]-separated pieces, each either
    [key=value] (the key free of [=] and [;], the value free of [;]) or text
    without [=], [parseCNIArgs] returns the value of the LAST pair with key
    K8S_POD_NAME and of the last pair with key K8S_POD_NAMESPACE; pieces
    without [=] and unknown keys are skipped, and a value keeps its own [=]
    signs.  When the last pod name is empty or missing the error is
    "K8S_POD_NAME not found in CNI_ARGS", otherwise when the namespace is, it
    is "K8S_POD_NAMESPACE not found in CNI_ARGS"; both results are then
    empty. *)
Theorem parseCNIArgs_pieces (pieces : list piece) :
  Forall wellFormedPiece pieces →
  Strings.Join (map renderPiece pieces) ";" ≠ "" →
  main.parseCNIArgs (Strings.Join (map renderPiece pieces) ";")
  = let podName := lastValue "K8S_POD_NAME" "" pieces in
    let podNamespace := lastValue "K8S_POD_NAMESPACE" "" pieces in
    if decide (podName = "")
    then ("", "", Some (errorString "K8S_POD_NAME not found in CNI_ARGS"))
    else if decide (podNamespace = "")
    then ("", "", Some (errorString "K8S_POD_NAMESPACE not found in CNI_ARGS"))
    else (podName, podNamespace, None).
Proof.
  intros Hall Hne. unfold main.parseCNIArgs. rewrite decide_False by done.
  rewrite Split_Join.
  - by rewrite scan_pieces.
  - destruct pieces; [done|]. done.
  - apply Forall_fmap. eapply Forall_impl; [exact Hall|]. apply renderPiece_free.
Qed.

Lemma parseCNIArgs_pieces_witness :
  main.parseCNIArgs
    "IgnoreUnknown=true;K8S_POD_NAMESPACE=kube-system;malformed;K8S_POD_NAME=old;K8S_POD_NAME=my=pod"
  = ("my=pod", "kube-system", None).
Proof.
  refine (parseCNIArgs_pieces
            [("IgnoreUnknown", Some "true"); ("K8S_POD_NAMESPACE", Some "kube-system");
             ("malformed", None); ("K8S_POD_NAME", Some "old");
             ("K8S_POD_NAME", Some "my=pod")] _ _).
  - repeat constructor.
  - vm_compute. discriminate.
Defined.

(** X2.  Whatever the argument string, [parseCNIArgs] either succeeds with
    a non-empty pod name and a non-empty namespace, or fails with both results
    empty; the message "CNI_ARGS is empty" is given exactly for the empty
    string. *)
Theorem parseCNIArgs_identity_invariant (cniArgs : string) :
  match main.parseCNIArgs cniArgs with
  | (podName, podNamespace, None) => podName ≠ "" ∧ podNamespace ≠ ""
  | (podName, podNamespace, Some err) =>
      podName = "" ∧ podNamespace = ""
      ∧ (Error err = "CNI_ARGS is empty" ↔ cniArgs = "")
  end.
Proof.
  unfold main.parseCNIArgs.
  repeat (branch; try done); repeat split; try done; cbn; intros; congruence.
Qed.


(** ** Configuration *)

(** X3.  A configuration [ParseConfig] accepts is the decoded one with only
    the annotation key changed: the delegate is non-empty, the kubeconfig path
    is absolute and has no [..], the annotation key is the decoded one or, when
    that is empty, "tenant.routing/fwmark" (so never empty), and every other
    field is as decoded. *)
Theorem ParseConfig_accepted (env : Env) (stdin : string) (conf : PluginConf) :
  config.ParseConfig env stdin = Ok conf →
  ∃ raw,
    json_Unmarshal_conf env stdin = Ok raw
    ∧ Delegate conf = Delegate raw ∧ Delegate conf ≠ ""
    ∧ Kubeconfig conf = Kubeconfig raw
    ∧ Strings.HasPrefix (Kubeconfig conf) "/" = true
    ∧ Strings.Contains (Kubeconfig conf) ".." = false
    ∧ AnnotationKey conf
      = (if decide (AnnotationKey raw = "") then "tenant.routing/fwmark"
         else AnnotationKey raw)
    ∧ AnnotationKey conf ≠ ""
    ∧ CNIVersion conf = CNIVersion raw ∧ Name conf = Name raw
    ∧ Type_ conf = Type_ raw ∧ PrevResult conf = PrevResult raw.
Proof.
  unfold config.ParseConfig, Strings.IsAbs.
  destruct (json_Unmarshal_conf env stdin) as [raw|e]; [|done].
  destruct (String.length (Delegate raw) =? 0)%nat eqn:Hlen; [done|].
  case_decide as Hk; [done|].
  destruct (Strings.HasPrefix (Kubeconfig raw) "/") eqn:Habs; [|done]. cbn [negb].
  destruct (Strings.Contains (Kubeconfig raw) "..") eqn:Hdots; [done|].
  assert (Delegate raw ≠ "") as Hdel.
  { intros Heq. rewrite Heq in Hlen. done. }
  case_decide as Ha; intros [= <-]; exists raw; cbn;
    rewrite ?decide_True, ?decide_False by done; repeat split; done.
Qed.

Lemma ParseConfig_accepted_witness :
  ∃ raw,
    json_Unmarshal_conf Demo.env Demo.stdin = Ok raw
    ∧ Delegate Demo.parsed = Delegate raw ∧ Delegate Demo.parsed ≠ ""
    ∧ Kubeconfig Demo.parsed = Kubeconfig raw
    ∧ Strings.HasPrefix (Kubeconfig Demo.parsed) "/" = true
    ∧ Strings.Contains (Kubeconfig Demo.parsed) ".." = false
    ∧ AnnotationKey Demo.parsed
      = (if decide (AnnotationKey raw = "") then "tenant.routing/fwmark"
         else AnnotationKey raw)
    ∧ AnnotationKey Demo.parsed ≠ ""
    ∧ CNIVersion Demo.parsed = CNIVersion raw
    ∧ Name Demo.parsed = Name raw
    ∧ Type_ Demo.parsed = Type_ raw
    ∧ PrevResult Demo.parsed = PrevResult raw.
Proof.
  apply (ParseConfig_accepted Demo.env Demo.stdin). vm_compute. reflexivity.
Defined.

(** X4.  [ParseConfig] checks in a fixed order and reports the first
    failure: a decoding error is wrapped with "failed to parse network
    configuration: "; then an empty delegate, an empty kubeconfig path, a
    relative path and a path containing [..] are each refused with their own
    message, the last two quoting the path. *)
Theorem ParseConfig_rejected (env : Env) (stdin : string) :
  (∀ e, json_Unmarshal_conf env stdin = Err e →
        config.ParseConfig env stdin
        = Err (Errorf_w "failed to parse network configuration: " e))
  ∧ (∀ raw, json_Unmarshal_conf env stdin = Ok raw →
       (Delegate raw = "" →
        config.ParseConfig env stdin
        = Err (errorString "delegate plugin configuration is required"))
       ∧ (Delegate raw ≠ "" → Kubeconfig raw = "" →
          config.ParseConfig env stdin = Err (errorString "kubeconfig path is required"))
       ∧ (Delegate raw ≠ "" → Kubeconfig raw ≠ "" →
          Strings.HasPrefix (Kubeconfig raw) "/" = false →
          config.ParseConfig env stdin
          = Err (errorString ("kubeconfig path must be absolute, got: "
                              +:+ Kubeconfig raw)))
       ∧ (Delegate raw ≠ "" → Strings.HasPrefix (Kubeconfig raw) "/" = true →
          Strings.Contains (Kubeconfig raw) ".." = true →
          config.ParseConfig env stdin
          = Err (errorString ("kubeconfig path cannot contain '..' components: "
                              +:+ Kubeconfig raw)))).
Proof.
  unfold config.ParseConfig, Strings.IsAbs. split.
  - by intros e ->.
  - intros raw ->.
    assert (∀ s : string, s ≠ "" → (String.length s =? 0)%nat = false) as Hlen
      by (by intros [|? ?]).
    repeat split.
    + by intros ->.
    + intros Hd ->. by rewrite Hlen.
    + intros Hd Hk Habs. rewrite Hlen, decide_False, Habs by done. done.
    + intros Hd Habs Hdots. rewrite Hlen by done.
      rewrite decide_False by (intros Hk; rewrite Hk in Habs; done).
      by rewrite Habs, Hdots.
Qed.

Lemma ParseConfig_rejected_witness :
  config.ParseConfig Demo.env Demo.stdinNoDelegate
  = Err (errorString "delegate plugin configuration is required").
Proof.
  refine (proj1 (proj2 (ParseConfig_rejected Demo.env Demo.stdinNoDelegate)
                       (Demo.conf "") _) _); vm_compute; reflexivity.
Defined.


(** ** Delegation *)

(** X5.  When the delegate configuration does not decode, has no non-empty
    string under "type", or CNI_PATH is unset, [DelegateAdd], [DelegateDel]
    and [DelegateCheck] all return the same error and make no external call:
    the plugin is not run. *)
Theorem delegate_refuses_without_running (env : Env)
    (delegateConfig networkName stdin : string) (w : World) :
  (∃ e, json_Unmarshal_map env delegateConfig = Err e)
  ∨ (∃ m, json_Unmarshal_map env delegateConfig = Ok m
          ∧ ∀ pluginType, m !! "type" = Some (AnyString pluginType) → pluginType = "")
  ∨ os_Getenv env "CNI_PATH" = "" →
  ∃ err,
    delegate.DelegateAdd env delegateConfig networkName stdin w = ((None, Some err), w)
    ∧ delegate.DelegateDel env delegateConfig networkName stdin w = (Some err, w)
    ∧ delegate.DelegateCheck env delegateConfig networkName stdin w = (Some err, w).
Proof.
  intros Hbad.
  assert (∃ err, delegate.prepareDelegate env delegateConfig networkName = Err err)
    as [err Hprep].
  { unfold delegate.prepareDelegate.
    destruct (json_Unmarshal_map env delegateConfig) as [m|e] eqn:Hm; [|by eexists].
    destruct (m !! "type") as [[pluginType|raw]|] eqn:Htype; try by eexists.
    case_decide as Hempty; [by eexists|].
    destruct (json_Marshal_map env _) as [cfg|e]; [|by eexists].
    case_decide as Hpath; [by eexists|].
    destruct Hbad as [[e [=]] | [(m' & [= <-] & Hm') | Hp]]; [|done].
    destruct Hempty. by apply Hm'. }
  exists err. unfold delegate.DelegateAdd, delegate.DelegateDel, delegate.DelegateCheck.
  by rewrite Hprep.
Qed.

Lemma delegate_refuses_without_running_witness :
  ∃ err,
    delegate.DelegateAdd Demo.env "{invalid json}" "test-network" "{}" Demo.world0
    = ((None, Some err), Demo.world0)
    ∧ delegate.DelegateDel Demo.env "{invalid json}" "test-network" "{}" Demo.world0
      = (Some err, Demo.world0)
    ∧ delegate.DelegateCheck Demo.env "{invalid json}" "test-network" "{}" Demo.world0
      = (Some err, Demo.world0).
Proof.
  apply delegate_refuses_without_running. left. eexists. vm_compute. reflexivity.
Defined.

(** X6.  When the preparation succeeds, each of [DelegateAdd],
    [DelegateDel] and [DelegateCheck] runs the plugin named by "type" exactly
    once, with its own command and with the configuration re-encoded after
    "name" has been set to the network name.  A failure of the plugin is
    wrapped with the plugin type and the command; ADD otherwise passes the
    plugin's result through. *)
Theorem delegate_runs_plugin_once (env : Env)
    (delegateConfig networkName stdin : string) (w : World)
    (m : gmap string any) (pluginType netconf : string) :
  json_Unmarshal_map env delegateConfig = Ok m →
  m !! "type" = Some (AnyString pluginType) → pluginType ≠ "" →
  json_Marshal_map env (<["name" := AnyString networkName]> m) = Ok netconf →
  os_Getenv env "CNI_PATH" ≠ "" →
  let run := fun command => InvokeDelegate command pluginType netconf in
  let failed := fun what cause =>
    wrapError (("delegate plugin " +:+ fmt_q env pluginType +:+ what) +:+ Error cause) cause in
  delegate.DelegateAdd env delegateConfig networkName stdin w
  = (match fault env (trace w) (run "ADD") with
     | Some cause => (None, Some (failed " failed: " cause))
     | None => (plugin_result env (trace w) pluginType netconf, None)
     end, record (run "ADD") w)
  ∧ delegate.DelegateDel env delegateConfig networkName stdin w
    = (match fault env (trace w) (run "DEL") with
       | Some cause => Some (failed " DEL failed: " cause)
       | None => None
       end, record (run "DEL") w)
  ∧ delegate.DelegateCheck env delegateConfig networkName stdin w
    = (match fault env (trace w) (run "CHECK") with
       | Some cause => Some (failed " CHECK failed: " cause)
       | None => None
       end, record (run "CHECK") w).
Proof.
  intros Hm Htype Hne Hcfg Hpath run failed.
  assert (delegate.prepareDelegate env delegateConfig networkName
          = Ok (pluginType, netconf)) as Hprep.
  { unfold delegate.prepareDelegate.
    by rewrite Hm, Htype, decide_False, Hcfg, decide_False. }
  unfold delegate.DelegateAdd, delegate.DelegateDel, delegate.DelegateCheck,
    delegate.invoke_DelegateAdd, extcall, Errorf_w.
  rewrite Hprep. subst run failed. cbn beta. unfold bind, ret.
  repeat split.
  - by destruct (fault env (trace w) (InvokeDelegate "ADD" pluginType netconf)).
  - by destruct (fault env (trace w) (InvokeDelegate "DEL" pluginType netconf)).
  - by destruct (fault env (trace w) (InvokeDelegate "CHECK" pluginType netconf)).
Qed.

Lemma delegate_runs_plugin_once_witness :
  ∃ netconf,
    json_Marshal_map Demo.env
      (<["name" := AnyString "test-network"]>
         (<["type" := AnyString "ptp"]> (<["cniVersion" := AnyString "1.0.0"]> ∅)))
    = Ok netconf
    ∧ delegate.DelegateAdd Demo.env Demo.delegateJSON "test-network" Demo.stdin Demo.world0
      = ((Demo.podResult, None), record (InvokeDelegate "ADD" "ptp" netconf) Demo.world0)
    ∧ delegate.DelegateDel Demo.env Demo.delegateJSON "test-network" Demo.stdin Demo.world0
      = (None, record (InvokeDelegate "DEL" "ptp" netconf) Demo.world0)
    ∧ delegate.DelegateCheck Demo.env Demo.delegateJSON "test-network" Demo.stdin Demo.world0
      = (None, record (InvokeDelegate "CHECK" "ptp" netconf) Demo.world0).
Proof.
  eexists. split; [reflexivity|].
  apply (delegate_runs_plugin_once Demo.env Demo.delegateJSON "test-network" Demo.stdin
           Demo.world0
           (<["type" := AnyString "ptp"]> (<["cniVersion" := AnyString "1.0.0"]> ∅))
           "ptp").
  - vm_compute. reflexivity.
  - vm_compute. reflexivity.
  - discriminate.
  - reflexivity.
  - vm_compute. discriminate.
Defined.


(** ** Relations every step keeps *)

Section Respects.

Context (R : World → World → Prop) `{!PreOrder R}.

Lemma respects_ret {A : Type} (a : A) : respects R (ret a).
Proof. intros w. cbn. reflexivity. Qed.

Lemma respects_bind {A B : Type} (m : M A) (k : A → M B) :
  respects R m → (∀ a, respects R (k a)) → respects R (bind m k).
Proof.
  intros Hm Hk w. unfold bind. specialize (Hm w). destruct (m w) as [a w1].
  cbn in Hm. etrans; [exact Hm | apply Hk].
Qed.

(** A step that only records a call. *)
Lemma respects_recording {A : Type} (m : M A) :
  (∀ w c, R w (record c w)) → (∀ w, ∃ c, (m w).2 = record c w) → respects R m.
Proof. intros HR Hm w. destruct (Hm w) as [c ->]. apply HR. Qed.

End Respects.

Global Instance sameChain_preorder : PreOrder sameChain.
Proof.
  split; [by intros w|]. intros w1 w2 w3 H12 H23. unfold sameChain in *. congruence.
Qed.

Global Instance noRuleAdded_preorder : PreOrder noRuleAdded.
Proof.
  split; [by intros w rule|]. intros w1 w2 w3 H12 H23 rule.
  etrans; [apply H23 | apply H12].
Qed.

Global Instance ruleUntouched_preorder (rule : rulespec) : PreOrder (ruleUntouched rule).
Proof.
  split; [by intros w|]. intros w1 w2 w3 H12 H23. unfold ruleUntouched in *. congruence.
Qed.

(** The steps that leave the rule table alone. *)
Section Quiet.

Context (R : World → World → Prop) `{!PreOrder R}.
Context (Hrecord : ∀ w c, R w (record c w)).
Context (env : Env).

Lemma respects_extcall (c : call) : respects R (extcall env c).
Proof. intros w. apply Hrecord. Qed.

Lemma respects_log (line : string) : respects R (log_Printf line).
Proof. intros w. apply Hrecord. Qed.

Lemma respects_PrintResult (res : Result) (version : string) :
  respects R (types_PrintResult env res version).
Proof. intros w. apply Hrecord. Qed.

Lemma respects_Pods_Get (c : Clientset) (namespace name : string) :
  respects R (k8s.Pods_Get env c namespace name).
Proof. intros w. unfold k8s.Pods_Get. repeat branch; apply Hrecord. Qed.

Lemma respects_Namespaces_Get (c : Clientset) (name : string) :
  respects R (k8s.Namespaces_Get env c name).
Proof. intros w. unfold k8s.Namespaces_Get. repeat branch; apply Hrecord. Qed.

Lemma respects_IPTables_Exists (ipt : Manager) (table chain_ : string) (rule : rulespec) :
  respects R (iptables.IPTables_Exists env ipt table chain_ rule).
Proof. intros w. unfold iptables.IPTables_Exists. repeat branch; apply Hrecord. Qed.

Lemma respects_NewClient (path : string) : respects R (k8s.NewClient env path).
Proof.
  unfold k8s.NewClient.
  repeat first [ apply respects_ret; done | apply respects_bind; [done| |intros ?]
               | apply respects_extcall | branch ].
Qed.

Lemma respects_GetFwmark (c : Clientset) (podName podNamespace key : string) :
  respects R (k8s.GetFwmark env c podName podNamespace key).
Proof.
  unfold k8s.GetFwmark.
  repeat first [ apply respects_ret; done | apply respects_bind; [done| |intros ?]
               | apply respects_Pods_Get | apply respects_Namespaces_Get | branch ].
Qed.

Lemma respects_DelegateAdd (delegateConfig networkName stdin : string) :
  respects R (delegate.DelegateAdd env delegateConfig networkName stdin).
Proof.
  unfold delegate.DelegateAdd.
  repeat first [ apply respects_ret; done | apply respects_bind; [done| |intros ?]
               | branch ].
  intros w. unfold delegate.invoke_DelegateAdd. repeat branch; apply Hrecord.
Qed.

Lemma respects_DelegateDel (delegateConfig networkName stdin : string) :
  respects R (delegate.DelegateDel env delegateConfig networkName stdin).
Proof.
  unfold delegate.DelegateDel.
  repeat first [ apply respects_ret; done | apply respects_bind; [done| |intros ?]
               | apply respects_extcall | branch ].
Qed.

Lemma respects_DelegateCheck (delegateConfig networkName stdin : string) :
  respects R (delegate.DelegateCheck env delegateConfig networkName stdin).
Proof.
  unfold delegate.DelegateCheck.
  repeat first [ apply respects_ret; done | apply respects_bind; [done| |intros ?]
               | apply respects_extcall | branch ].
Qed.

Lemma respects_RuleExists (podIP fwmark : string) :
  respects R (iptables.RuleExists env podIP fwmark).
Proof.
  unfold iptables.RuleExists, iptables.NewManager, iptables.IPTables_New.
  repeat first [ apply respects_ret; done | apply respects_bind; [done| |intros ?]
               | apply respects_extcall | apply respects_IPTables_Exists | branch ].
Qed.

End Quiet.


(** ** Client creation and tag resolution *)

(** X7.  With a non-empty kubeconfig path [NewClient] first stats the file:
    a failure there ends the call after that one step, with "does not exist"
    when the error is a not-exist error and "is not readable" (wrapping the
    cause) otherwise.  A failure to load the file ends it after two steps.  A
    client is returned exactly when the stat, the load and the client
    construction all succeed, after exactly those three steps; the in-cluster
    configuration is not consulted. *)
Theorem NewClient_probes_kubeconfig_first (env : Env) (path : string) (w : World) :
  path ≠ "" →
  let stat := OsStat path in
  let load := BuildConfigFromFlags "" path in
  (∀ cause, fault env (trace w) stat = Some cause →
     k8s.NewClient env path w
     = (Err (if os_IsNotExist cause
             then errorString ("kubeconfig file does not exist: " +:+ path)
             else Errorf_w ("kubeconfig file is not readable: " +:+ path +:+ ": ") cause),
        record stat w))
  ∧ (fault env (trace w) stat = None →
     ∀ cause, fault env (trace w ++ [stat]) load = Some cause →
       k8s.NewClient env path w
       = (Err (Errorf_w ("failed to build config from kubeconfig " +:+ path +:+ ": ") cause),
          record load (record stat w)))
  ∧ ((k8s.NewClient env path w).1 = Ok clientset
     ↔ fault env (trace w) stat = None
       ∧ fault env (trace w ++ [stat]) load = None
       ∧ fault env (trace w ++ [stat; load]) NewForConfig = None)
  ∧ ((k8s.NewClient env path w).1 = Ok clientset →
     trace (k8s.NewClient env path w).2 = (trace w ++ [stat; load; NewForConfig])%list).
Proof.
  intros Hpath stat load. subst stat load.
  unfold k8s.NewClient, extcall. run. rewrite decide_False by done.
  assert (Hflat : ∀ a b : call, ((trace w ++ [a]) ++ [b] = trace w ++ [a; b])%list)
    by (intros a b; by rewrite <- app_assoc).
  destruct (fault env (trace w) (OsStat path)) as [e1|]; cbn.
  { split; [|split; [|split]].
    - intros cause [= <-]. by destruct (os_IsNotExist e1).
    - done.
    - destruct (os_IsNotExist e1); cbn; (split; [done | intros (H & _); discriminate H]).
    - by destruct (os_IsNotExist e1). }
  destruct (fault env (trace w ++ [OsStat path]) (BuildConfigFromFlags "" path))
    as [e2|]; cbn.
  { split; [|split; [|split]]; try done.
    - by intros _ cause [= <-].
    - split; [done | intros (_ & H & _); discriminate H]. }
  rewrite ?Hflat.
  destruct (fault env (trace w ++ [OsStat path; BuildConfigFromFlags "" path])
                  NewForConfig) as [e3|]; cbn.
  { split; [|split; [|split]]; try done.
    split; [done | intros (_ & _ & H); discriminate H]. }
  split; [|split; [|split]]; try done. intros _. by rewrite <- !app_assoc.
Qed.

Lemma NewClient_probes_kubeconfig_first_witness :
  trace (k8s.NewClient Demo.env "/etc/cni/net.d/kubeconfig" Demo.world0).2
  = [OsStat "/etc/cni/net.d/kubeconfig";
     BuildConfigFromFlags "" "/etc/cni/net.d/kubeconfig"; NewForConfig].
Proof.
  apply (NewClient_probes_kubeconfig_first Demo.env "/etc/cni/net.d/kubeconfig"
           Demo.world0); [discriminate|].
  vm_compute. reflexivity.
Defined.

Lemma k8s_valid_allowListed (fwmark : string) :
  k8s.validateFwmark fwmark = None → allowListed fwmark.
Proof.
  unfold k8s.validateFwmark, k8s.ValidFwmarkValues, allowListed.
  destruct (decide (fwmark = "0x10")) as [-> | H10]; [by left|].
  destruct (decide (fwmark = "0x20")) as [-> | H20]; [by right|].
  by rewrite !lookup_insert_ne, lookup_empty by done.
Qed.

Lemma GetFwmark_value (env : Env) (c : Clientset)
    (podName podNamespace key : string) (w : World) :
  match (k8s.GetFwmark env c podName podNamespace key w).1 with
  | (fwmark, None) => fwmark = "" ∨ allowListed fwmark
  | (fwmark, Some _) => fwmark = ""
  end.
Proof.
  unfold k8s.GetFwmark, k8s.Pods_Get, k8s.Namespaces_Get. run.
  repeat (branch; run; simplify_eq/=); try done; try (by left);
    right; by apply k8s_valid_allowListed.
Qed.

(** X8.  [GetFwmark] never hands out a tag outside the allow-list: without
    error the tag is empty or one of 0x10 and 0x20, and with an error it is
    empty. *)
Theorem GetFwmark_answers (env : Env) (c : Clientset)
    (podName podNamespace key : string) (w : World) :
  match (k8s.GetFwmark env c podName podNamespace key w).1 with
  | (fwmark, None) => fwmark = "" ∨ allowListed fwmark
  | (fwmark, Some _) => fwmark = ""
  end.
Proof. apply GetFwmark_value. Qed.

(** X9.  [GetFwmark] leaves the rule table alone and asks the API server
    for the pod first; it asks for the namespace only when the pod was found
    and does not carry the annotation key, and asks nothing else. *)
Theorem GetFwmark_queries (env : Env) (c : Clientset)
    (podName podNamespace key : string) (w : World) :
  let podQuery := PodsGet podNamespace podName in
  chain (k8s.GetFwmark env c podName podNamespace key w).2 = chain w
  ∧ trace (k8s.GetFwmark env c podName podNamespace key w).2
    = (trace w
       ++ podQuery
          :: match fault env (trace w) podQuery, pods env !! (podNamespace, podName) with
             | None, Some pod =>
                 match Pod_Annotations pod !! key with
                 | Some _ => []
                 | None => [NamespacesGet podNamespace]
                 end
             | _, _ => []
             end)%list.
Proof.
  intros podQuery. split.
  - apply (respects_GetFwmark sameChain). by intros w0 c0.
  - subst podQuery. unfold k8s.GetFwmark, k8s.Pods_Get, k8s.Namespaces_Get. run.
    repeat (branch; run; simplify_eq/=); by rewrite <- ?app_assoc.
Qed.

(** X10.  The resolver's validation is the stricter one: a tag it accepts is
    accepted by the rule manager, so a non-empty tag returned by [GetFwmark]
    always passes the manager's validation; the converse fails, the manager
    accepts a spelling the resolver refuses. *)
Theorem resolver_stricter_than_manager (env : Env) :
  (∀ fwmark, k8s.validateFwmark fwmark = None → iptables.validateFwmark env fwmark = None)
  ∧ (∀ c podName podNamespace key w fwmark,
       (k8s.GetFwmark env c podName podNamespace key w).1 = (fwmark, None) →
       fwmark ≠ "" → iptables.validateFwmark env fwmark = None)
  ∧ (∃ fwmark, iptables.validateFwmark env fwmark = None ∧ k8s.validateFwmark fwmark ≠ None).
Proof.
  assert (Hstrict : ∀ fwmark, allowListed fwmark → iptables.validateFwmark env fwmark = None).
  { intros fwmark [-> | ->]; vm_compute; reflexivity. }
  repeat split.
  - intros fwmark Hk. by apply Hstrict, k8s_valid_allowListed.
  - intros c podName podNamespace key w fwmark Hres Hne.
    pose proof (GetFwmark_value env c podName podNamespace key w) as Hans.
    rewrite Hres in Hans. destruct Hans as [-> | Hok]; [done|]. by apply Hstrict.
  - exists " 0X20 ". split; vm_compute; [reflexivity | discriminate].
Qed.


(** ** The rule table under the manager *)

Lemma occurrences_removeFirst_other (rule other : rulespec) (rules : list rulespec) :
  other ≠ rule →
  occurrences other (iptables.removeFirst rule rules) = occurrences other rules.
Proof.
  intros Hne. induction rules as [|r rules IH]; [done|]. cbn.
  destruct (decide (r = rule)) as [-> | Hr].
  - by rewrite decide_False.
  - cbn. by rewrite IH.
Qed.

Lemma occurrences_removeFirst_le (rule other : rulespec) (rules : list rulespec) :
  (occurrences other (iptables.removeFirst rule rules) ≤ occurrences other rules)%nat.
Proof.
  induction rules as [|r rules IH]; [done|]. cbn.
  destruct (decide (r = rule)); cbn; lia.
Qed.

Lemma removeFirst_appended (rule : rulespec) (rules : list rulespec) :
  rule ∉ rules → iptables.removeFirst rule (rules ++ [rule]) = rules.
Proof.
  induction rules as [|r rules IH]; cbn.
  - intros _. by rewrite decide_True.
  - intros [Hr Hin]%not_elem_of_cons. rewrite decide_False by done. by rewrite IH.
Qed.

(** What the chain can be after one operation: untouched, one rule appended,
    or the first occurrence of the rule removed; an error leaves it as it
    was. *)
Lemma AddMarkRule_chain (env : Env) (podIP fwmark : string) (w : World) :
  let w' := (iptables.AddMarkRule env podIP fwmark w).2 in
  chain w' = chain w
  ∨ ((iptables.AddMarkRule env podIP fwmark w).1 = None
     ∧ chain w' = (chain w ++ [iptables.markRule podIP fwmark])%list).
Proof.
  unfold iptables.AddMarkRule, iptables.NewManager, iptables.IPTables_New,
    iptables.IPTables_Exists, iptables.IPTables_Append, extcall. run.
  repeat (branch; run; simplify_eq/=); auto.
Qed.

Lemma DeleteMarkRule_chain (env : Env) (podIP fwmark : string) (w : World) :
  let w' := (iptables.DeleteMarkRule env podIP fwmark w).2 in
  chain w' = chain w
  ∨ ((iptables.DeleteMarkRule env podIP fwmark w).1 = None
     ∧ chain w' = iptables.removeFirst (iptables.markRule podIP fwmark) (chain w)).
Proof.
  unfold iptables.DeleteMarkRule, iptables.NewManager, iptables.IPTables_New,
    iptables.IPTables_Exists, iptables.IPTables_Delete, extcall. run.
  repeat (branch; run; simplify_eq/=); auto.
Qed.

Lemma DeleteMarkRule_noRuleAdded (env : Env) (podIP fwmark : string) :
  respects noRuleAdded (iptables.DeleteMarkRule env podIP fwmark).
Proof.
  intros w rule. destruct (DeleteMarkRule_chain env podIP fwmark w) as [-> | [_ ->]];
    [done | apply occurrences_removeFirst_le].
Qed.

Lemma markOp_ruleUntouched (env : Env) (add : bool) (podIP fwmark : string)
    (other : rulespec) :
  other ≠ iptables.markRule podIP fwmark →
  respects (ruleUntouched other) (markOp env add podIP fwmark).
Proof.
  intros Hne w. unfold ruleUntouched, markOp. destruct add.
  - destruct (AddMarkRule_chain env podIP fwmark w) as [-> | [_ ->]]; [done|].
    rewrite occurrences_app. cbn. rewrite decide_False by done. lia.
  - destruct (DeleteMarkRule_chain env podIP fwmark w) as [-> | [_ ->]]; [done|].
    by apply occurrences_removeFirst_other.
Qed.

(** X11.  [RuleExists] never changes the rule table, and [AddMarkRule] and
    [DeleteMarkRule] leave it as it was whenever they return an error. *)
Theorem manager_changes_chain_only_on_success (env : Env) (podIP fwmark : string)
    (w : World) :
  chain (iptables.RuleExists env podIP fwmark w).2 = chain w
  ∧ (∀ err, (iptables.AddMarkRule env podIP fwmark w).1 = Some err →
            chain (iptables.AddMarkRule env podIP fwmark w).2 = chain w)
  ∧ (∀ err, (iptables.DeleteMarkRule env podIP fwmark w).1 = Some err →
            chain (iptables.DeleteMarkRule env podIP fwmark w).2 = chain w).
Proof.
  split; [|split].
  - apply (respects_RuleExists sameChain). by intros w0 c0.
  - intros err Herr. destruct (AddMarkRule_chain env podIP fwmark w) as [H | [H _]];
      [done | congruence].
  - intros err Herr. destruct (DeleteMarkRule_chain env podIP fwmark w) as [H | [H _]];
      [done | congruence].
Qed.

Lemma manager_changes_chain_only_on_success_witness :
  chain (iptables.AddMarkRule
           (Demo.failing (fun c => match c with IptablesAppend _ _ _ => true | _ => false end))
           "10.200.1.5" "0x10" Demo.world0).2
  = chain Demo.world0.
Proof.
  refine (proj1 (proj2 (manager_changes_chain_only_on_success _ _ _ _))
                (wrapError _ (errorString "exit status 1")) _).
  vm_compute. reflexivity.
Defined.

(** X12.  [AddMarkRule] and [DeleteMarkRule] affect only their own rule:
    every other rule occurs as often as before, and the number of occurrences
    of their own rule goes up, respectively down, by at most one. *)
Theorem manager_touches_one_rule (env : Env) (podIP fwmark : string) (w : World)
    (other : rulespec) :
  let rule := iptables.markRule podIP fwmark in
  let added := chain (iptables.AddMarkRule env podIP fwmark w).2 in
  let deleted := chain (iptables.DeleteMarkRule env podIP fwmark w).2 in
  (other ≠ rule →
   occurrences other added = occurrences other (chain w)
   ∧ occurrences other deleted = occurrences other (chain w))
  ∧ (occurrences rule (chain w) ≤ occurrences rule added ≤ S (occurrences rule (chain w)))%nat
  ∧ (occurrences rule deleted ≤ occurrences rule (chain w) ≤ S (occurrences rule deleted))%nat.
Proof.
  intros rule added deleted. subst rule added deleted. split; [|split].
  - intros Hne. split.
    + apply (markOp_ruleUntouched env true podIP fwmark other Hne w).
    + apply (markOp_ruleUntouched env false podIP fwmark other Hne w).
  - destruct (AddMarkRule_chain env podIP fwmark w) as [-> | [_ ->]]; [lia|].
    rewrite occurrences_app. cbn. rewrite decide_True by done. lia.
  - destruct (DeleteMarkRule_chain env podIP fwmark w) as [-> | [_ ->]]; [lia|].
    destruct (decide (iptables.markRule podIP fwmark ∈ chain w)) as [Hin | Hout].
    + rewrite (occurrences_removeFirst _ _ Hin). lia.
    + pose proof (occurrences_removeFirst_le (iptables.markRule podIP fwmark)
                    (iptables.markRule podIP fwmark) (chain w)).
      apply occurrences_absent in Hout. lia.
Qed.

Lemma manager_touches_one_rule_witness :
  occurrences (iptables.markRule "10.200.1.6" "0x20")
              (chain (iptables.AddMarkRule Demo.env "10.200.1.5" "0x10"
                        {| chain := [iptables.markRule "10.200.1.6" "0x20"];
                           trace := [] |}).2)
  = 1%nat.
Proof.
  refine (proj1 (proj1 (manager_touches_one_rule Demo.env "10.200.1.5" "0x10"
                          {| chain := [iptables.markRule "10.200.1.6" "0x20"];
                             trace := [] |}
                          (iptables.markRule "10.200.1.6" "0x20")) _)).
  discriminate.
Defined.

Lemma RuleExists_reliable (env : Env) (podIP fwmark : string) (w : World) :
  validPair env podIP fwmark → toolReliable env →
  (iptables.RuleExists env podIP fwmark w).1
  = (bool_decide (iptables.markRule podIP fwmark ∈ chain w), None).
Proof.
  intros (Hne & Hip & Hfw) Htool.
  unfold iptables.RuleExists, iptables.NewManager, iptables.IPTables_New,
    iptables.IPTables_Exists, extcall.
  rewrite decide_False by done.
  destruct (net_ParseIP env podIP) as [p|]; [|done]. rewrite Hfw. run.
  rewrite !Htool by exact I. done.
Qed.

Lemma markOp_count (env : Env) (add : bool) (podIP fwmark : string) (w : World) :
  validPair env podIP fwmark → toolReliable env →
  occurrences (iptables.markRule podIP fwmark) (chain (markOp env add podIP fwmark w).2)
  = markCount add (occurrences (iptables.markRule podIP fwmark) (chain w)).
Proof.
  intros Hvalid Htool. destruct add; cbn.
  - by apply AddMarkRule_occurrences.
  - by apply DeleteMarkRule_occurrences.
Qed.

(** X13.  For valid arguments over a tool that answers, [RuleExists] reports
    membership of the rule in the table: it says yes after [AddMarkRule], no
    after [DeleteMarkRule] when the rule occurred at most once, and adding then
    deleting a rule that was absent gives back the table one started from. *)
Theorem RuleExists_after_operations (env : Env) (podIP fwmark : string) (w : World) :
  validPair env podIP fwmark → toolReliable env →
  let rule := iptables.markRule podIP fwmark in
  let add := iptables.AddMarkRule env podIP fwmark in
  let del := iptables.DeleteMarkRule env podIP fwmark in
  let query := fun w0 => (iptables.RuleExists env podIP fwmark w0).1 in
  query w = (bool_decide (rule ∈ chain w), None)
  ∧ query (add w).2 = (true, None)
  ∧ ((occurrences rule (chain w) ≤ 1)%nat → query (del w).2 = (false, None))
  ∧ (rule ∉ chain w → chain (del (add w).2).2 = chain w).
Proof.
  intros Hvalid Htool rule add del query. subst query. cbn beta.
  rewrite !RuleExists_reliable by done. fold rule. split; [done|].
  pose proof (AddMarkRule_occurrences env podIP fwmark Hvalid Htool w) as Haddn.
  pose proof (DeleteMarkRule_occurrences env podIP fwmark Hvalid Htool w) as Hdeln.
  fold rule add del in Haddn, Hdeln.
  split; [|split].
  - rewrite bool_decide_eq_true_2; [done|].
    destruct (decide (rule ∈ chain (add w).2)) as [|Hout]; [done|].
    apply occurrences_absent in Hout. lia.
  - intros Hle. rewrite bool_decide_eq_false_2; [done|].
    apply occurrences_absent. lia.
  - intros Hout.
    destruct (AddMarkRule_reliable env podIP fwmark Hvalid Htool w) as [_ Hadd].
    destruct (DeleteMarkRule_reliable env podIP fwmark Hvalid Htool (add w).2)
      as [_ Hdel].
    fold rule add del in Hadd, Hdel.
    rewrite bool_decide_eq_false_2 in Hadd by done.
    rewrite Hdel, Hadd. rewrite bool_decide_eq_true_2 by set_solver.
    by apply removeFirst_appended.
Qed.

Lemma RuleExists_after_operations_witness :
  (iptables.RuleExists Demo.env "10.200.1.5" "0x10"
     (iptables.AddMarkRule Demo.env "10.200.1.5" "0x10" Demo.world0).2).1
  = (true, None).
Proof.
  refine (proj1 (proj2 (RuleExists_after_operations Demo.env "10.200.1.5" "0x10"
                          Demo.world0 _ _))).
  - repeat split; vm_compute; congruence.
  - intros h c _. reflexivity.
Defined.

(** X14.  For valid arguments over a tool that answers, two mark operations
    (each an addition or a deletion) on different rules commute: either order
    leaves every rule with the same number of occurrences. *)
Theorem operations_on_different_rules_commute (env : Env) (w : World)
    (add1 add2 : bool) (podIP1 fwmark1 podIP2 fwmark2 : string) :
  validPair env podIP1 fwmark1 → validPair env podIP2 fwmark2 → toolReliable env →
  iptables.markRule podIP1 fwmark1 ≠ iptables.markRule podIP2 fwmark2 →
  let op1 := markOp env add1 podIP1 fwmark1 in
  let op2 := markOp env add2 podIP2 fwmark2 in
  ∀ rule,
    occurrences rule (chain (op2 (op1 w).2).2)
    = occurrences rule (chain (op1 (op2 w).2).2).
Proof.
  intros Hv1 Hv2 Htool Hne op1 op2 rule. subst op1 op2.
  destruct (decide (rule = iptables.markRule podIP1 fwmark1)) as [-> | H1];
    [|destruct (decide (rule = iptables.markRule podIP2 fwmark2)) as [-> | H2]].
  - rewrite (markOp_ruleUntouched env add2 podIP2 fwmark2 _ Hne).
    rewrite !markOp_count by done.
    by rewrite (markOp_ruleUntouched env add2 podIP2 fwmark2 _ Hne).
  - rewrite markOp_count by done.
    rewrite !(markOp_ruleUntouched env add1 podIP1 fwmark1 _ H1).
    by rewrite markOp_count.
  - rewrite (markOp_ruleUntouched env add2 podIP2 fwmark2 _ H2).
    rewrite (markOp_ruleUntouched env add1 podIP1 fwmark1 _ H1).
    rewrite (markOp_ruleUntouched env add1 podIP1 fwmark1 _ H1).
    by rewrite (markOp_ruleUntouched env add2 podIP2 fwmark2 _ H2).
Qed.

Lemma operations_on_different_rules_commute_witness :
  occurrences (iptables.markRule "10.200.1.5" "0x10")
    (chain (markOp Demo.env false "10.200.1.6" "0x20"
              (markOp Demo.env true "10.200.1.5" "0x10" Demo.world0).2).2)
  = occurrences (iptables.markRule "10.200.1.5" "0x10")
      (chain (markOp Demo.env true "10.200.1.5" "0x10"
                (markOp Demo.env false "10.200.1.6" "0x20" Demo.world0).2).2).
Proof.
  refine (operations_on_different_rules_commute Demo.env Demo.world0 true false
            "10.200.1.5" "0x10" "10.200.1.6" "0x20" _ _ _ _
            (iptables.markRule "10.200.1.5" "0x10")).
  - repeat split; vm_compute; congruence.
  - repeat split; vm_compute; congruence.
  - intros h c _. reflexivity.
  - discriminate.
Defined.


(** ** What the handlers call *)

Lemma ParseConfig_ok (env : Env) (stdin : string) (conf : PluginConf) :
  config.ParseConfig env stdin = Ok conf → Kubeconfig conf ≠ "".
Proof.
  unfold config.ParseConfig.
  repeat (branch; try done); intros [= <-]; done.
Qed.

Section Footprints.

Context (P : call → Prop) (env : Env).

Lemma emits_NewClient_path (path : string) :
  path ≠ "" → P (OsStat path) → P (BuildConfigFromFlags "" path) → P NewForConfig →
  emits P (k8s.NewClient env path).
Proof.
  intros Hpath Hstat Hload Hnew. unfold k8s.NewClient. rewrite decide_False by done.
  repeat first [ apply emits_ret | apply emits_bind; [|intros ?]
               | by apply emits_extcall | branch ].
Qed.

Lemma emits_GetFwmark_store (c : Clientset) (podName podNamespace key : string) :
  P (PodsGet podNamespace podName) → P (NamespacesGet podNamespace) →
  emits P (k8s.GetFwmark env c podName podNamespace key).
Proof.
  intros Hpod Hns. unfold k8s.GetFwmark.
  repeat first [ apply emits_ret | apply emits_bind; [|intros ?]
               | by apply emits_Pods_Get | by apply emits_Namespaces_Get | branch ].
Qed.

Lemma emits_IPTables_Delete (ipt : Manager) (table chain_ : string) (rule : rulespec) :
  P (IptablesDelete table chain_ rule) →
  emits P (iptables.IPTables_Delete env ipt table chain_ rule).
Proof.
  intros Hc. apply (emits_one _ (IptablesDelete table chain_ rule)); [done|]. intros w.
  unfold iptables.IPTables_Delete. by repeat branch.
Qed.

Lemma emits_AddMarkRule_tool (podIP fwmark : string) :
  P IptablesNew → (∀ t c r, P (IptablesExists t c r)) → (∀ t c r, P (IptablesAppend t c r)) →
  emits P (iptables.AddMarkRule env podIP fwmark).
Proof.
  intros Hnew Hex Happ.
  unfold iptables.AddMarkRule, iptables.NewManager, iptables.IPTables_New.
  repeat first [ apply emits_ret | apply emits_bind; [|intros ?]
               | by apply emits_extcall | by apply emits_IPTables_Exists
               | by apply emits_IPTables_Append | branch ].
Qed.

Lemma emits_DeleteMarkRule_tool (podIP fwmark : string) :
  P IptablesNew → (∀ t c r, P (IptablesExists t c r)) → (∀ t c r, P (IptablesDelete t c r)) →
  emits P (iptables.DeleteMarkRule env podIP fwmark).
Proof.
  intros Hnew Hex Hdel.
  unfold iptables.DeleteMarkRule, iptables.NewManager, iptables.IPTables_New.
  repeat first [ apply emits_ret | apply emits_bind; [|intros ?]
               | by apply emits_extcall | by apply emits_IPTables_Exists
               | by apply emits_IPTables_Delete | branch ].
Qed.

Lemma emits_RuleExists_tool (podIP fwmark : string) :
  P IptablesNew → (∀ t c r, P (IptablesExists t c r)) →
  emits P (iptables.RuleExists env podIP fwmark).
Proof.
  intros Hnew Hex.
  unfold iptables.RuleExists, iptables.NewManager, iptables.IPTables_New.
  repeat first [ apply emits_ret | apply emits_bind; [|intros ?]
               | by apply emits_extcall | by apply emits_IPTables_Exists | branch ].
Qed.

Lemma emits_DelegateAdd_plugin (delegateConfig networkName stdin : string) :
  (∀ t c, P (InvokeDelegate "ADD" t c)) →
  emits P (delegate.DelegateAdd env delegateConfig networkName stdin).
Proof.
  intros Hrun. unfold delegate.DelegateAdd.
  repeat first [ apply emits_ret | apply emits_bind; [|intros ?] | branch ].
  match goal with
  | |- emits _ (delegate.invoke_DelegateAdd _ ?t ?c) =>
      apply (emits_one _ (InvokeDelegate "ADD" t c)); [done|]
  end.
  intros w. unfold delegate.invoke_DelegateAdd. by repeat branch.
Qed.

Lemma emits_DelegateDel_plugin (delegateConfig networkName stdin : string) :
  (∀ t c, P (InvokeDelegate "DEL" t c)) →
  emits P (delegate.DelegateDel env delegateConfig networkName stdin).
Proof.
  intros Hrun. unfold delegate.DelegateDel.
  repeat first [ apply emits_ret | apply emits_bind; [|intros ?]
               | by apply emits_extcall | branch ].
Qed.

Lemma emits_DelegateCheck_plugin (delegateConfig networkName stdin : string) :
  (∀ t c, P (InvokeDelegate "CHECK" t c)) →
  emits P (delegate.DelegateCheck env delegateConfig networkName stdin).
Proof.
  intros Hrun. unfold delegate.DelegateCheck.
  repeat first [ apply emits_ret | apply emits_bind; [|intros ?]
               | by apply emits_extcall | branch ].
Qed.

Lemma emits_forEach {A : Type} (xs : list A) (body : A → M unit) :
  (∀ x, emits P (body x)) → emits P (forEach xs body).
Proof.
  intros Hbody. induction xs as [|x xs IH]; cbn [forEach].
  - apply emits_ret.
  - apply emits_bind; [apply Hbody | by intros _].
Qed.

End Footprints.

Global Instance noRuleRemoved_preorder : PreOrder noRuleRemoved.
Proof.
  split; [by intros w rule|]. intros w1 w2 w3 H12 H23 rule.
  etrans; [apply H12 | apply H23].
Qed.

Lemma respects_forEach (R : World → World → Prop) `{!PreOrder R} {A : Type}
    (xs : list A) (body : A → M unit) :
  (∀ x, respects R (body x)) → respects R (forEach xs body).
Proof.
  intros Hbody. induction xs as [|x xs IH]; cbn [forEach].
  - by apply respects_ret.
  - apply respects_bind; [done | apply Hbody | by intros _].
Qed.

Lemma AddMarkRule_noRuleRemoved (env : Env) (podIP fwmark : string) :
  respects noRuleRemoved (iptables.AddMarkRule env podIP fwmark).
Proof.
  intros w rule. destruct (AddMarkRule_chain env podIP fwmark w) as [-> | [_ ->]];
    [done|]. rewrite occurrences_app. lia.
Qed.

(** X15.  [cmdCheck] is read-only: whatever its input, the rule table is
    unchanged, and the calls it makes include no rule addition or deletion, no
    printed result, no in-cluster configuration, and of the chained plugin
    only CHECK. *)
Theorem cmdCheck_only_reads (env : Env) (args : CmdArgs) (w : World) :
  chain (main.cmdCheck env args w).2 = chain w
  ∧ ∃ evs, trace (main.cmdCheck env args w).2 = (trace w ++ evs)%list
           ∧ Forall checkCalls evs.
Proof.
  split.
  - revert w. change (respects sameChain (main.cmdCheck env args)).
    pose proof sameChain_preorder as Hpre.
    assert (Hrec : ∀ w c, sameChain w (record c w)) by done.
    unfold main.cmdCheck.
    repeat match goal with
    | |- respects _ (ret _) => by apply respects_ret
    | |- respects _ (bind _ _) => apply respects_bind; [done| |intros ?]
    | |- respects _ (log_Printf _) => by apply respects_log
    | |- respects _ (k8s.NewClient _ _) => by apply respects_NewClient
    | |- respects _ (k8s.GetFwmark _ _ _ _ _) => by apply respects_GetFwmark
    | |- respects _ (delegate.DelegateCheck _ _ _ _) => by apply respects_DelegateCheck
    | |- respects _ (iptables.RuleExists _ _ _) => by apply respects_RuleExists
    | |- respects _ _ => branch
    end.
  - revert w. change (emits checkCalls (main.cmdCheck env args)).
    unfold main.cmdCheck.
    destruct (config.ParseConfig env (StdinData args)) as [conf|e] eqn:Hconf;
      [|apply emits_ret].
    apply ParseConfig_ok in Hconf.
    repeat match goal with
    | |- emits _ (ret _) => apply emits_ret
    | |- emits _ (bind _ _) => apply emits_bind; [|intros ?]
    | |- emits _ (log_Printf _) => by apply emits_log
    | |- emits _ (k8s.NewClient _ _) => by apply emits_NewClient_path
    | |- emits _ (k8s.GetFwmark _ _ _ _ _) => by apply emits_GetFwmark_store
    | |- emits _ (delegate.DelegateCheck _ _ _ _) => by apply emits_DelegateCheck_plugin
    | |- emits _ (iptables.RuleExists _ _ _) => by apply emits_RuleExists_tool
    | |- emits _ _ => branch
    end.
Qed.

(** X16.  [cmdDel] never adds a rule: whatever its input, no rule occurs
    more often afterwards, and the calls it makes include no rule addition, no
    printed result, no in-cluster configuration, and of the chained plugin
    only DEL. *)
Theorem cmdDel_never_adds (env : Env) (args : CmdArgs) (w : World) :
  (∀ rule, (occurrences rule (chain (main.cmdDel env args w).2)
            ≤ occurrences rule (chain w))%nat)
  ∧ ∃ evs, trace (main.cmdDel env args w).2 = (trace w ++ evs)%list
           ∧ Forall delCalls evs.
Proof.
  split.
  - revert w. change (respects noRuleAdded (main.cmdDel env args)).
    pose proof noRuleAdded_preorder as Hpre.
    assert (Hrec : ∀ w c, noRuleAdded w (record c w)) by (by intros w c rule).
    unfold main.cmdDel, main.cleanupIptablesRules.
    repeat match goal with
    | |- respects _ (ret _) => by apply respects_ret
    | |- respects _ (bind _ _) => apply respects_bind; [done| |intros ?]
    | |- respects _ (log_Printf _) => by apply respects_log
    | |- respects _ (k8s.NewClient _ _) => by apply respects_NewClient
    | |- respects _ (k8s.GetFwmark _ _ _ _ _) => by apply respects_GetFwmark
    | |- respects _ (delegate.DelegateDel _ _ _ _) => by apply respects_DelegateDel
    | |- respects _ (iptables.DeleteMarkRule _ _ _) => apply DeleteMarkRule_noRuleAdded
    | |- respects _ (forEach _ _) => apply respects_forEach; [done|intros ?]
    | |- respects _ _ => branch
    end.
  - revert w. change (emits delCalls (main.cmdDel env args)).
    unfold main.cmdDel, main.cleanupIptablesRules.
    destruct (config.ParseConfig env (StdinData args)) as [conf|e] eqn:Hconf.
    2:{ apply emits_bind; [by apply emits_log | intros _; apply emits_ret]. }
    apply ParseConfig_ok in Hconf.
    repeat match goal with
    | |- emits _ (ret _) => apply emits_ret
    | |- emits _ (bind _ _) => apply emits_bind; [|intros ?]
    | |- emits _ (log_Printf _) => by apply emits_log
    | |- emits _ (k8s.NewClient _ _) => by apply emits_NewClient_path
    | |- emits _ (k8s.GetFwmark _ _ _ _ _) => by apply emits_GetFwmark_store
    | |- emits _ (delegate.DelegateDel _ _ _ _) => by apply emits_DelegateDel_plugin
    | |- emits _ (iptables.DeleteMarkRule _ _ _) => by apply emits_DeleteMarkRule_tool
    | |- emits _ (forEach _ _) => apply emits_forEach; intros ?
    | |- emits _ _ => branch
    end.
Qed.

(** X17.  [cmdAdd] never removes a rule: whatever its input, no rule occurs
    less often afterwards, and the calls it makes include no rule deletion, no
    in-cluster configuration, and of the chained plugin only ADD. *)
Theorem cmdAdd_never_removes (env : Env) (args : CmdArgs) (w : World) :
  (∀ rule, (occurrences rule (chain w)
            ≤ occurrences rule (chain (main.cmdAdd env args w).2))%nat)
  ∧ ∃ evs, trace (main.cmdAdd env args w).2 = (trace w ++ evs)%list
           ∧ Forall addCalls evs.
Proof.
  split.
  - revert w. change (respects noRuleRemoved (main.cmdAdd env args)).
    pose proof noRuleRemoved_preorder as Hpre.
    assert (Hrec : ∀ w c, noRuleRemoved w (record c w)) by (by intros w c rule).
    unfold main.cmdAdd.
    repeat match goal with
    | |- respects _ (ret _) => by apply respects_ret
    | |- respects _ (bind _ _) => apply respects_bind; [done| |intros ?]
    | |- respects _ (log_Printf _) => by apply respects_log
    | |- respects _ (k8s.NewClient _ _) => by apply respects_NewClient
    | |- respects _ (k8s.GetFwmark _ _ _ _ _) => by apply respects_GetFwmark
    | |- respects _ (delegate.DelegateAdd _ _ _ _) => by apply respects_DelegateAdd
    | |- respects _ (iptables.AddMarkRule _ _ _) => apply AddMarkRule_noRuleRemoved
    | |- respects _ (types_PrintResult _ _ _) => by apply respects_PrintResult
    | |- respects _ _ => branch
    end.
  - revert w. change (emits addCalls (main.cmdAdd env args)).
    unfold main.cmdAdd.
    destruct (config.ParseConfig env (StdinData args)) as [conf|e] eqn:Hconf;
      [|apply emits_ret].
    apply ParseConfig_ok in Hconf.
    repeat match goal with
    | |- emits _ (ret _) => apply emits_ret
    | |- emits _ (bind _ _) => apply emits_bind; [|intros ?]
    | |- emits _ (log_Printf _) => by apply emits_log
    | |- emits _ (k8s.NewClient _ _) => by apply emits_NewClient_path
    | |- emits _ (k8s.GetFwmark _ _ _ _ _) => by apply emits_GetFwmark_store
    | |- emits _ (delegate.DelegateAdd _ _ _ _) => by apply emits_DelegateAdd_plugin
    | |- emits _ (iptables.AddMarkRule _ _ _) => by apply emits_AddMarkRule_tool
    | |- emits _ (types_PrintResult _ _ _) => by apply emits_extcall
    | |- emits _ _ => branch
    end.
Qed.


(** ** The handlers end to end *)

Lemma sameChain_record (w : World) (c : call) : sameChain w (record c w).
Proof. done. Qed.

Lemma allowListed_manager (env : Env) (fwmark : string) :
  allowListed fwmark → iptables.validateFwmark env fwmark = None.
Proof. intros [-> | ->]; vm_compute; reflexivity. Qed.

(** X18.  Once the configuration and the arguments are accepted, a failure
    of the chained plugin or of the address extraction ends [cmdAdd] on the
    spot: it returns the cause wrapped with "delegation failed: ",
    respectively "failed to extract pod IP from delegate result: ", and it
    panics when the extraction does, each time in the world the plugin run
    left, so no client is built, no rule is touched and nothing is printed;
    the plugin run itself leaves the rule table as it was. *)
Theorem cmdAdd_stops_at_fatal_failure (env : Env) (args : CmdArgs) (w w1 : World)
    (conf : PluginConf) (podName podNamespace : string) (res : Result) (derr : goerr) :
  config.ParseConfig env (StdinData args) = Ok conf →
  main.parseCNIArgs (Args args) = (podName, podNamespace, None) →
  delegate.DelegateAdd env (Delegate conf) (Name conf) (StdinData args) w
  = ((res, derr), w1) →
  chain w1 = chain w
  ∧ (∀ cause, derr = Some cause →
       main.cmdAdd env args w
       = (Returns (Some (Errorf_w "delegation failed: " cause)), w1))
  ∧ (derr = None →
     ∀ podIP cause, result.ExtractPodIP res = Returns (podIP, Some cause) →
       main.cmdAdd env args w
       = (Returns (Some (Errorf_w "failed to extract pod IP from delegate result: "
                                  cause)), w1))
  ∧ (derr = None → result.ExtractPodIP res = Panics →
     main.cmdAdd env args w = (Panics, w1)).
Proof.
  intros Hconf Hargs Hdel. split; [|split; [|split]].
  - pose proof (respects_DelegateAdd sameChain sameChain_record env
                  (Delegate conf) (Name conf) (StdinData args) w) as H.
    by rewrite Hdel in H.
  - intros cause ->. unfold main.cmdAdd. rewrite Hconf, Hargs. run. by rewrite Hdel.
  - intros -> podIP cause Hext. unfold main.cmdAdd. rewrite Hconf, Hargs. run.
    by rewrite Hdel, Hext.
  - intros -> Hext. unfold main.cmdAdd. rewrite Hconf, Hargs. run.
    by rewrite Hdel, Hext.
Qed.

Lemma cmdAdd_stops_at_fatal_failure_witness :
  ∃ cause w1,
    main.cmdAdd (Demo.failing (fun c => match c with InvokeDelegate _ _ _ => true | _ => false end))
                (Demo.cmdArgs "K8S_POD_NAME=web;K8S_POD_NAMESPACE=production" Demo.stdin)
                Demo.world0
    = (Returns (Some (Errorf_w "delegation failed: " cause)), w1).
Proof.
  eexists _, _.
  refine (proj1 (proj2 (cmdAdd_stops_at_fatal_failure
                          (Demo.failing (fun c => match c with
                                                  | InvokeDelegate _ _ _ => true
                                                  | _ => false
                                                  end))
                          (Demo.cmdArgs "K8S_POD_NAME=web;K8S_POD_NAMESPACE=production"
                                        Demo.stdin)
                          Demo.world0 _ Demo.parsed "web" "production" None _
                          _ _ _)) _ eq_refl).
  - vm_compute. reflexivity.
  - vm_compute. reflexivity.
  - vm_compute. reflexivity.
Defined.

(** X19.  When every stage of [cmdAdd] succeeds and the resolver yields the
    tag, the rule table after [cmdAdd] is the table before it when the tag is
    empty; for a non-empty tag, an address the manager accepts and a tool that
    answers, it is the table before with the rule of the extracted address and
    the resolved tag appended unless that rule was already there. *)
Theorem cmdAdd_installs_rule (env : Env) (args : CmdArgs) (w w1 w2 w3 : World)
    (conf : PluginConf) (podName podNamespace podIP fwmark : string)
    (res : Result) (c : Clientset) :
  config.ParseConfig env (StdinData args) = Ok conf →
  main.parseCNIArgs (Args args) = (podName, podNamespace, None) →
  delegate.DelegateAdd env (Delegate conf) (Name conf) (StdinData args) w
  = ((res, None), w1) →
  result.ExtractPodIP res = Returns (podIP, None) →
  k8s.NewClient env (Kubeconfig conf) w1 = (Ok c, w2) →
  k8s.GetFwmark env c podName podNamespace (AnnotationKey conf) w2
  = ((fwmark, None), w3) →
  let rule := iptables.markRule podIP fwmark in
  let final := chain (main.cmdAdd env args w).2 in
  (fwmark = "" → final = chain w)
  ∧ (fwmark ≠ "" →
     Strings.TrimSpace podIP ≠ "" → net_ParseIP env podIP ≠ None → toolReliable env →
     final = if bool_decide (rule ∈ chain w) then chain w else (chain w ++ [rule])%list).
Proof.
  intros Hconf Hargs Hdel Hext Hcli Hfw rule final. subst rule final.
  assert (chain w3 = chain w) as Hchain.
  { pose proof (respects_DelegateAdd sameChain sameChain_record env
                  (Delegate conf) (Name conf) (StdinData args) w) as H1.
    pose proof (respects_NewClient sameChain sameChain_record env (Kubeconfig conf) w1)
      as H2.
    pose proof (respects_GetFwmark sameChain sameChain_record env c podName podNamespace
                  (AnnotationKey conf) w2) as H3.
    rewrite Hdel in H1. rewrite Hcli in H2. rewrite Hfw in H3.
    unfold sameChain in *. cbn in *. congruence. }
  unfold main.cmdAdd. rewrite Hconf, Hargs. run. rewrite Hdel, Hext, Hcli, Hfw.
  split.
  - intros ->. by rewrite decide_False by (intros H; by apply H).
  - intros Hne Htrim Hip Htool. rewrite decide_True by done.
    assert (validPair env podIP fwmark) as Hvalid.
    { split; [done|]. split; [done|]. apply allowListed_manager.
      pose proof (GetFwmark_value env c podName podNamespace (AnnotationKey conf) w2) as Hv.
      rewrite Hfw in Hv. cbn in Hv. by destruct Hv. }
    destruct (AddMarkRule_reliable env podIP fwmark Hvalid Htool w3) as [Hnone Hadd].
    destruct (iptables.AddMarkRule env podIP fwmark w3) as [err w4]. cbn in Hnone, Hadd.
    subst err. cbn. by rewrite Hadd, Hchain.
Qed.

Lemma cmdAdd_installs_rule_witness :
  chain (main.cmdAdd Demo.env
           (Demo.cmdArgs "K8S_POD_NAME=web;K8S_POD_NAMESPACE=production" Demo.stdin)
           Demo.world0).2
  = [iptables.markRule "10.200.1.5" "0x10"].
Proof.
  refine (proj2 (cmdAdd_installs_rule Demo.env
                   (Demo.cmdArgs "K8S_POD_NAME=web;K8S_POD_NAMESPACE=production" Demo.stdin)
                   Demo.world0 _ _ _ Demo.parsed "web" "production"
                   "10.200.1.5" "0x10" Demo.podResult clientset _ _ _ _ _ _) _ _ _ _).
  - vm_compute. reflexivity.
  - vm_compute. reflexivity.
  - vm_compute. reflexivity.
  - vm_compute. reflexivity.
  - vm_compute. reflexivity.
  - vm_compute. reflexivity.
  - discriminate.
  - vm_compute. discriminate.
  - vm_compute. discriminate.
  - intros h c _. reflexivity.
Defined.

Lemma calls_bind_l {A B : Type} (c : call) (m : M A) (k : A → M B) :
  calls c m → (∀ a, emits anyCall (k a)) → calls c (bind m k).
Proof.
  intros Hm Hk w. unfold bind. specialize (Hm w). destruct (m w) as [a w1].
  destruct (Hk a w1) as (evs & -> & _). cbn in Hm. set_solver.
Qed.

Lemma calls_bind_r {A B : Type} (c : call) (m : M A) (k : A → M B) :
  (∀ a, calls c (k a)) → calls c (bind m k).
Proof. intros Hk w. unfold bind. destruct (m w) as [a w1]. apply Hk. Qed.

Lemma warned_chain (prefix : string) (err : goerr) (w : World) :
  chain (warned prefix err w) = chain w.
Proof. by destruct err. Qed.

Lemma bind_ret_l {A B : Type} (a : A) (k : A → M B) : bind (ret a) k = k a.
Proof. reflexivity. Qed.

(** X20.  When the configuration is refused, [cmdDel] only writes one
    warning and returns nil: the chained plugin's DEL is not run.  When the
    configuration is accepted and the delegate can be prepared, the plugin's
    DEL is run whatever the arguments and the earlier result are. *)
Theorem cmdDel_delegates_whenever_configured (env : Env) (args : CmdArgs) (w : World) :
  (∀ cause, config.ParseConfig env (StdinData args) = Err cause →
     main.cmdDel env args w
     = (Returns None, record (LogPrintf ("WARNING: failed to parse config in DEL: "
                                         +:+ Error cause)) w))
  ∧ (∀ conf pluginType netconf,
       config.ParseConfig env (StdinData args) = Ok conf →
       delegate.prepareDelegate env (Delegate conf) (Name conf) = Ok (pluginType, netconf) →
       InvokeDelegate "DEL" pluginType netconf ∈ trace (main.cmdDel env args w).2).
Proof.
  split.
  - intros cause Hconf. unfold main.cmdDel. rewrite Hconf. reflexivity.
  - intros conf pluginType netconf Hconf Hprep. revert w.
    change (calls (InvokeDelegate "DEL" pluginType netconf) (main.cmdDel env args)).
    unfold main.cmdDel, main.cleanupIptablesRules. rewrite Hconf.
    rewrite (ParseConfig_PrevResult _ _ _ Hconf).
    apply ParseConfig_ok in Hconf.
    destruct (main.parseCNIArgs (Args args)) as [[podName podNamespace] err].
    apply calls_bind_r. intros _. rewrite bind_ret_l.
    apply calls_bind_l.
    + intros w. unfold delegate.DelegateDel. rewrite Hprep. unfold extcall. run.
      destruct (fault env _ _); cbn; set_solver.
    + intros derr.
      repeat match goal with
      | |- emits _ (ret _) => apply emits_ret
      | |- emits _ (bind _ _) => apply emits_bind; [|intros ?]
      | |- emits _ (log_Printf _) => by apply emits_log
      | |- emits _ (k8s.NewClient _ _) => by apply emits_NewClient_path
      | |- emits _ (k8s.GetFwmark _ _ _ _ _) => by apply emits_GetFwmark_store
      | |- emits _ (iptables.DeleteMarkRule _ _ _) => by apply emits_DeleteMarkRule_tool
      | |- emits _ (forEach _ _) => apply emits_forEach; intros ?
      | |- emits _ _ => branch
      end.
Qed.

Lemma cmdDel_delegates_whenever_configured_witness :
  ∃ netconf,
    InvokeDelegate "DEL" "ptp" netconf
    ∈ trace (main.cmdDel Demo.env (Demo.cmdArgs "" Demo.stdin) Demo.world0).2.
Proof.
  eexists.
  refine (proj2 (cmdDel_delegates_whenever_configured Demo.env
                   (Demo.cmdArgs "" Demo.stdin) Demo.world0)
                Demo.parsed "ptp" _ _ _).
  - vm_compute. reflexivity.
  - vm_compute. reflexivity.
Defined.

(** X21.  The configuration the handlers work on never holds an earlier
    result, and that decides what [cmdDel] and [cmdCheck] do once the
    configuration is accepted.  [cmdDel] warns when the arguments do not
    parse, runs the chained plugin's DEL, warns when that fails, and returns
    nil.  [cmdCheck] runs the plugin's CHECK, returns its failure wrapped,
    and otherwise writes one warning (about the arguments, or else about
    the missing earlier result) and returns nil.  Neither asks the metadata
    store or the rule tool, and the rule table is not changed. *)
Theorem handlers_without_earlier_result (env : Env) (args : CmdArgs) (w : World)
    (conf : PluginConf) :
  config.ParseConfig env (StdinData args) = Ok conf →
  PrevResult conf = None
  ∧ main.cmdDel env args w
    = (let w0 := warned "WARNING: failed to parse CNI_ARGS in DEL: "
                        (main.parseCNIArgs (Args args)).2 w in
       let run := delegate.DelegateDel env (Delegate conf) (Name conf)
                                       (StdinData args) w0 in
       (Returns None, warned "WARNING: delegate DEL failed: " run.1 run.2))
  ∧ main.cmdCheck env args w
    = (let run := delegate.DelegateCheck env (Delegate conf) (Name conf)
                                         (StdinData args) w in
       match run.1 with
       | Some derr => (Returns (Some (Errorf_w "delegate CHECK failed: " derr)), run.2)
       | None =>
           (Returns None,
            record (LogPrintf
                      match (main.parseCNIArgs (Args args)).2 with
                      | Some perr =>
                          "WARNING: CHECK cannot verify iptables - failed to parse CNI_ARGS: "
                          +:+ Error perr
                      | None =>
                          "WARNING: CHECK cannot verify iptables - no prevResult available"
                      end) run.2)
       end)
  ∧ chain (main.cmdDel env args w).2 = chain w.
Proof.
  intros Hconf. pose proof (ParseConfig_PrevResult _ _ _ Hconf) as Hprev.
  assert (Hdel : main.cmdDel env args w
                 = (let w0 := warned "WARNING: failed to parse CNI_ARGS in DEL: "
                                     (main.parseCNIArgs (Args args)).2 w in
                    let run := delegate.DelegateDel env (Delegate conf) (Name conf)
                                                    (StdinData args) w0 in
                    (Returns None, warned "WARNING: delegate DEL failed: " run.1 run.2))).
  { unfold main.cmdDel. rewrite Hconf, Hprev.
    destruct (main.parseCNIArgs (Args args)) as [[podName podNamespace] [perr|]];
      run; cbn [snd warned];
      destruct (delegate.DelegateDel env _ _ _ _) as [[derr|] w1]; cbn;
      repeat case_decide; try done; destruct_and?; done. }
  assert (Hcheck : main.cmdCheck env args w
    = (let run := delegate.DelegateCheck env (Delegate conf) (Name conf)
                                         (StdinData args) w in
       match run.1 with
       | Some derr => (Returns (Some (Errorf_w "delegate CHECK failed: " derr)), run.2)
       | None =>
           (Returns None,
            record (LogPrintf
                      match (main.parseCNIArgs (Args args)).2 with
                      | Some perr =>
                          "WARNING: CHECK cannot verify iptables - failed to parse CNI_ARGS: "
                          +:+ Error perr
                      | None =>
                          "WARNING: CHECK cannot verify iptables - no prevResult available"
                      end) run.2)
       end)).
  { unfold main.cmdCheck. rewrite Hconf, Hprev. run.
    destruct (delegate.DelegateCheck env _ _ _ w) as [[derr|] w1]; cbn; [done|].
    by destruct (main.parseCNIArgs (Args args)) as [[podName podNamespace] [perr|]]. }
  split; [done|]. split; [done|]. split; [done|].
  rewrite Hdel. cbn. rewrite warned_chain.
  pose proof (respects_DelegateDel sameChain sameChain_record env (Delegate conf)
                (Name conf) (StdinData args)
                (warned "WARNING: failed to parse CNI_ARGS in DEL: "
                        (main.parseCNIArgs (Args args)).2 w)) as Hrun.
  unfold sameChain in Hrun. rewrite Hrun. apply warned_chain.
Qed.

Lemma handlers_without_earlier_result_witness :
  chain (main.cmdDel Demo.env
           (Demo.cmdArgs "K8S_POD_NAME=web;K8S_POD_NAMESPACE=production" Demo.stdinPrev)
           {| chain := [iptables.markRule "10.200.1.5" "0x10"]; trace := [] |}).2
  = [iptables.markRule "10.200.1.5" "0x10"].
Proof.
  refine (proj2 (proj2 (proj2 (handlers_without_earlier_result Demo.env
                   (Demo.cmdArgs "K8S_POD_NAME=web;K8S_POD_NAMESPACE=production"
                                 Demo.stdinPrev)
                   {| chain := [iptables.markRule "10.200.1.5" "0x10"]; trace := [] |}
                   Demo.parsed _)))).
  vm_compute. reflexivity.
Defined.

(** ** The sweep over a tool that answers *)

Lemma ranged_allowListed (env : Env) (tag : string) :
  tag ∈ main.rangeValidFwmarkValues env → allowListed tag.
Proof.
  unfold main.rangeValidFwmarkValues. rewrite rangeOrder_Permutation.
  intros ([tag' b] & -> & Hin)%list_elem_of_fmap.
  apply elem_of_map_to_list in Hin. cbn. unfold allowListed.
  destruct (decide (tag' = "0x10")) as [-> | H10]; [by left|].
  destruct (decide (tag' = "0x20")) as [-> | H20]; [by right|].
  unfold k8s.ValidFwmarkValues in Hin.
  by rewrite !lookup_insert_ne, lookup_empty in Hin by done.
Qed.

Lemma ranged_NoDup (env : Env) : NoDup (main.rangeValidFwmarkValues env).
Proof.
  unfold main.rangeValidFwmarkValues. rewrite rangeOrder_Permutation.
  apply NoDup_fst_map_to_list.
Qed.

Lemma sweep_reliable (env : Env) (podIP : string) (tags : list string) :
  Strings.TrimSpace podIP ≠ "" → net_ParseIP env podIP ≠ None → toolReliable env →
  Forall allowListed tags → NoDup tags →
  let body := fun fwmark =>
    do err <- iptables.DeleteMarkRule env podIP fwmark ;;
    match err with
    | Some err =>
        log_Printf ("DEBUG: DeleteMarkRule(" +:+ podIP +:+ ", " +:+ fwmark
                    +:+ ") failed: " +:+ Error err)
    | None => ret tt
    end in
  ∀ w,
    (∀ tag, tag ∈ tags →
       occurrences (iptables.markRule podIP tag) (chain (forEach tags body w).2)
       = Nat.pred (occurrences (iptables.markRule podIP tag) (chain w)))
    ∧ (∀ rule, (∀ tag, tag ∈ tags → rule ≠ iptables.markRule podIP tag) →
         occurrences rule (chain (forEach tags body w).2) = occurrences rule (chain w)).
Proof.
  intros Htrim Hip Htool Hall Hnodup body.
  induction tags as [|t tags IH]; intros w.
  - split; [intros tag Hin; by apply elem_of_nil in Hin | done].
  - apply Forall_cons in Hall as [Ht Hall]. apply NoDup_cons in Hnodup as [Hnotin Hnodup].
    specialize (IH Hall Hnodup).
    assert (validPair env podIP t) as Hvalid
      by (split; [done|]; split; [done|]; by apply allowListed_manager).
    assert (chain (body t w).2 = chain (iptables.DeleteMarkRule env podIP t w).2) as Hbody.
    { subst body. run. by destruct (iptables.DeleteMarkRule env podIP t w) as [[e|] w']. }
    assert (∀ rule, occurrences rule (chain (forEach (t :: tags) body w).2)
                    = occurrences rule (chain (forEach tags body (body t w).2).2)) as Hstep.
    { intros rule. cbn [forEach]. unfold bind. by destruct (body t w). }
    destruct (IH (body t w).2) as [IHa IHb].
    split.
    + intros tag Hin. rewrite Hstep. apply elem_of_cons in Hin as [-> | Hin].
      * rewrite IHb.
        -- rewrite Hbody. by apply DeleteMarkRule_occurrences.
        -- intros tag Hin [= ->]. done.
      * rewrite IHa by done. rewrite Hbody. f_equal.
        apply (markOp_ruleUntouched env false podIP t).
        intros [= ->]. done.
    + intros rule Hrule. rewrite Hstep. rewrite IHb.
      * rewrite Hbody. apply (markOp_ruleUntouched env false podIP t).
        apply Hrule. by left.
      * intros tag Hin. apply Hrule. by right.
Qed.

(** X22.  Over a tool that answers and for an address the manager accepts,
    the sweep [cleanupIptablesRules] removes one occurrence (when there is
    one) of the rule of the address with each allow-listed tag, in whatever
    order the tags are visited, and leaves the number of occurrences of every
    other rule as it was. *)
Theorem cleanupIptablesRules_reliable (env : Env) (podIP : string) (w : World) :
  Strings.TrimSpace podIP ≠ "" → net_ParseIP env podIP ≠ None → toolReliable env →
  let final := chain (main.cleanupIptablesRules env podIP w).2 in
  (∀ tag, allowListed tag →
     occurrences (iptables.markRule podIP tag) final
     = Nat.pred (occurrences (iptables.markRule podIP tag) (chain w)))
  ∧ (∀ rule, (∀ tag, allowListed tag → rule ≠ iptables.markRule podIP tag) →
       occurrences rule final = occurrences rule (chain w)).
Proof.
  intros Htrim Hip Htool final. subst final. unfold main.cleanupIptablesRules.
  assert (Forall allowListed (main.rangeValidFwmarkValues env)) as Hall
    by (apply Forall_forall; intros tag; apply (ranged_allowListed env)).
  destruct (sweep_reliable env podIP (main.rangeValidFwmarkValues env)
              Htrim Hip Htool Hall (ranged_NoDup env) w) as [Ha Hb].
  split.
  - intros tag Htag. apply Ha. by apply (allowListed_ranged env).
  - intros rule Hrule. apply Hb. intros tag Hin. apply Hrule.
    by apply (ranged_allowListed env).
Qed.

Lemma cleanupIptablesRules_reliable_witness :
  occurrences (iptables.markRule "10.200.1.5" "0x20")
    (chain (main.cleanupIptablesRules Demo.env "10.200.1.5"
              {| chain := [iptables.markRule "10.200.1.5" "0x20";
                           iptables.markRule "10.200.1.5" "0x10";
                           iptables.markRule "10.200.1.5" "0x20"];
                 trace := [] |}).2)
  = 1%nat.
Proof.
  refine (proj1 (cleanupIptablesRules_reliable Demo.env "10.200.1.5"
                   {| chain := [iptables.markRule "10.200.1.5" "0x20";
                                iptables.markRule "10.200.1.5" "0x10";
                                iptables.markRule "10.200.1.5" "0x20"];
                      trace := [] |} _ _ _) "0x20" _).
  - vm_compute. discriminate.
  - vm_compute. discriminate.
  - intros h c _. reflexivity.
  - by right.
Defined.


(** ** The text of the extracted address *)

Lemma firstIPv4_text (ips : list (option IP)) (podIP : string) (err : goerr) :
  result.firstIPv4 ips = Returns (podIP, err) →
  match err with
  | None => ∃ ip a b c d, Some ip ∈ ips ∧ To4 ip = Some [a; b; c; d]
                          ∧ podIP = Strings.Join (map ubtoa [a; b; c; d]) "."
  | Some _ => podIP = ""
  end.
Proof.
  induction ips as [|entry ips IH]; cbn [result.firstIPv4].
  - by intros [= <- <-].
  - assert (result.firstIPv4 ips = Returns (podIP, err) →
            match err with
            | None => ∃ ip0 a b c d, Some ip0 ∈ entry :: ips ∧ To4 ip0 = Some [a; b; c; d]
                                     ∧ podIP = Strings.Join (map ubtoa [a; b; c; d]) "."
            | Some _ => podIP = ""
            end) as Hrest.
    { intros H. specialize (IH H). destruct err; [done|].
      destruct IH as (ip0 & a & b & c & d & Hin & H4 & ->).
      exists ip0, a, b, c, d. split; [by right | done]. }
    destruct entry as [ip|]; [|done]. destruct ip as [p|]; [|done].
    destruct (To4 (Some p)) as [p4|] eqn:H4; [|done].
    intros Heq. assert (podIP = IP_String (Some p)) as -> by congruence.
    assert (err = None) as -> by congruence. clear Heq.
    pose proof (To4_length _ _ H4) as Hlen.
    destruct p4 as [|a [|b [|c [|d [|? ?]]]]]; try done.
    exists (Some p), a, b, c, d. split; [by left|]. split; [done|].
    unfold IP_String. destruct p as [|b0 p]; [by vm_compute in H4|]. by rewrite H4.
Qed.

(** X23.  The text [ExtractPodIP] returns is empty whenever it returns an
    error; on success it is the dotted form [a.b.c.d] of the four bytes of an
    IPv4 address of the result's address list. *)
Theorem ExtractPodIP_text (res : Result) (podIP : string) (err : goerr) :
  result.ExtractPodIP res = Returns (podIP, err) →
  match err with
  | None =>
      ∃ rv ips ip a b c d,
        res = Some rv ∧ addresses rv = Some ips ∧ Some ip ∈ ips
        ∧ To4 ip = Some [a; b; c; d]
        ∧ podIP = (ubtoa a +:+ "." +:+ ubtoa b +:+ "." +:+ ubtoa c +:+ "." +:+ ubtoa d)
  | Some _ => podIP = ""
  end.
Proof.
  assert (∀ a b c d, Strings.Join (map ubtoa [a; b; c; d]) "."
                     = ubtoa a +:+ "." +:+ ubtoa b +:+ "." +:+ ubtoa c +:+ "." +:+ ubtoa d)
    as Hjoin.
  { intros a b c d. cbn. reflexivity. }
  destruct res as [rv|]; [|by intros [= <- <-]].
  destruct (addresses rv) as [ips|] eqn:Haddr.
  - rewrite (ExtractPodIP_addresses rv ips Haddr).
    destruct (length ips =? 0)%nat; [by intros [= <- <-]|].
    intros Hfirst%firstIPv4_text. destruct err; [done|].
    destruct Hfirst as (ip & a & b & c & d & Hin & H4 & ->).
    exists rv, ips, ip, a, b, c, d. by rewrite Hjoin.
  - destruct rv as [r|r|T]; try done. by intros [= <- <-].
Qed.

Lemma ExtractPodIP_text_witness :
  ∃ rv ips ip a b c d,
    Demo.podResult = Some rv ∧ addresses rv = Some ips ∧ Some ip ∈ ips
    ∧ To4 ip = Some [a; b; c; d]
    ∧ "10.200.1.5" = (ubtoa a +:+ "." +:+ ubtoa b +:+ "." +:+ ubtoa c +:+ "." +:+ ubtoa d).
Proof.
  apply (ExtractPodIP_text Demo.podResult "10.200.1.5" None). vm_compute. reflexivity.
Defined.

(** ** What the extractor does with each list *)

(** X24.  [ExtractPodIP] returns one error for a nil result and another,
    naming the Go type, for a result of neither known shape.  On a known
    shape it looks at the address list in order.  An empty list gives a third
    error.  Otherwise it passes over the entries whose IP is nil or not
    IPv4, as long as they are not nil pointers: at the first IPv4 entry it
    returns that address as text; at a nil pointer it panics; and when the
    whole list has been passed over it returns a fourth error.  The four
    error texts are pairwise different. *)
Theorem ExtractPodIP_contract :
  result.ExtractPodIP None = Returns ("", Some (errorString "CNI result is nil"))
  ∧ (∀ goType,
       result.ExtractPodIP (Some (ROther goType))
       = Returns ("", Some (errorString ("unsupported CNI result type: " +:+ goType))))
  ∧ (∀ rv ips, addresses rv = Some ips →
       (ips = [] →
        result.ExtractPodIP (Some rv)
        = Returns ("", Some (errorString "CNI result contains no IP addresses")))
       ∧ (∀ skipped ip rest,
            ips = (map Some skipped ++ Some ip :: rest)%list →
            Forall (λ x, result.IsIPv4 x = false) skipped →
            result.IsIPv4 ip = true →
            result.ExtractPodIP (Some rv) = Returns (IP_String ip, None))
       ∧ (∀ skipped rest,
            ips = (map Some skipped ++ None :: rest)%list →
            Forall (λ x, result.IsIPv4 x = false) skipped →
            result.ExtractPodIP (Some rv) = Panics)
       ∧ (∀ skipped,
            ips = map Some skipped → ips ≠ [] →
            Forall (λ x, result.IsIPv4 x = false) skipped →
            result.ExtractPodIP (Some rv)
            = Returns ("", Some (errorString
                                   "CNI result contains no IPv4 addresses (only IPv6)"))))
  ∧ (∀ goType,
       NoDup [ "CNI result is nil";
               "unsupported CNI result type: " +:+ goType;
               "CNI result contains no IPv4 addresses (only IPv6)";
               "CNI result contains no IP addresses" ]).
Proof.
  split; [done|]. split; [done|]. split.
  - intros rv ips Hips. rewrite (ExtractPodIP_addresses _ _ Hips).
    split; [by intros ->|]. split; [|split].
    + intros skipped ip rest -> Hskip Hip.
      rewrite length_app. cbn [length].
      replace (length (map Some skipped) + S (length rest) =? 0)%nat with false
        by (symmetry; apply Nat.eqb_neq; lia).
      rewrite firstIPv4_skip by done. by apply firstIPv4_hit.
    + intros skipped rest -> Hskip.
      rewrite length_app. cbn [length].
      replace (length (map Some skipped) + S (length rest) =? 0)%nat with false
        by (symmetry; apply Nat.eqb_neq; lia).
      by apply firstIPv4_nil.
    + intros skipped -> Hne Hall. destruct skipped as [|ip skipped]; [done|].
      cbn [map length Nat.eqb].
      change (Some ip :: map Some skipped) with (map Some (ip :: skipped)).
      rewrite <- (app_nil_r (map Some (ip :: skipped))). by rewrite firstIPv4_skip.
  - intros goType. unfold String.append.
    repeat (apply NoDup_cons; split; [rewrite ?elem_of_cons, elem_of_nil; intros H; decompose [or] H; discriminate || done|]).
    apply NoDup_nil. done.
Qed.

Lemma ExtractPodIP_contract_witness :
  let mixed := R100 {| CNIVersion100 := "1.0.0";
                       IPs100 := [Some (Demo.entry None); Some (Demo.entry Demo.ipv6Only);
                                  Some (Demo.entry (Demo.ip4 x0a xc8 x03 x0f))] |} in
  let onlyV6 := R040 {| CNIVersion040 := "0.4.0";
                        IPs040 := [Some {| Version040 := "6"; Interface040 := None;
                                           Address040 := {| IPNet_IP := Demo.ipv6Only;
                                                            IPNet_Mask := [] |};
                                           Gateway040 := None |}] |} in
  let holed := R100 {| CNIVersion100 := "1.0.0";
                       IPs100 := [Some (Demo.entry Demo.ipv6Only); None;
                                  Some (Demo.entry (Demo.ip4 x0a xc8 x03 x0f))] |} in
  result.ExtractPodIP (Some mixed) = Returns ("10.200.3.15", None)
  ∧ result.ExtractPodIP (Some onlyV6)
    = Returns ("", Some (errorString "CNI result contains no IPv4 addresses (only IPv6)"))
  ∧ result.ExtractPodIP (Some holed) = Panics.
Proof.
  intros mixed onlyV6 holed.
  destruct ExtractPodIP_contract as (_ & _ & Hknown & _). split; [|split].
  - destruct (Hknown mixed
                [Some None; Some Demo.ipv6Only; Some (Demo.ip4 x0a xc8 x03 x0f)] eq_refl)
      as (_ & Hfirst & _).
    refine (Hfirst [None; Demo.ipv6Only] (Demo.ip4 x0a xc8 x03 x0f) [] eq_refl _ eq_refl).
    repeat constructor.
  - destruct (Hknown onlyV6 [Some Demo.ipv6Only] eq_refl) as (_ & _ & _ & Hnone).
    apply (Hnone [Demo.ipv6Only]); [reflexivity | discriminate | repeat constructor].
  - destruct (Hknown holed
                [Some Demo.ipv6Only; None; Some (Demo.ip4 x0a xc8 x03 x0f)] eq_refl)
      as (_ & _ & Hnil & _).
    refine (Hnil [Demo.ipv6Only] [Some (Demo.ip4 x0a xc8 x03 x0f)] eq_refl _).
    repeat constructor.
Defined.
